(** * SO(3) irreducible representations: the notebook's generator construction

    A shallow embedding of [notebooks/irreps.ipynb] (functions
    [initialize_generators], [initialize_eigenstates],
    [reassemble_mat_from_sols] and [form_matrix_irrep_so3]) together with
    the properties of the resulting matrices.

    Numbers.  The notebook computes with [numpy] complex doubles and
    [sympy] expressions and finally passes the solved entries through
    [sympy.nsimplify].  Every number it can produce is a finite sum of
    terms [(a + b*i) * sqrt n] with [a], [b] rational and [n] a positive
    integer; the type [K] below holds exactly these sums in a normal form
    with decidable equality, and each floating-point operation of the
    source is read as the exact operation on the value it stands for.
    The function [value] gives the complex number a [K] stands for, and
    the operations of [K] are shown to agree with those of the complex
    numbers.  For half-integer spins the magnetic numbers and the dimension
    are doubles and nothing is rounded; statements that cover other inputs
    carry a margin that keeps the rounding harmless, and statements about
    the values [nsimplify] returns are made for the tested spins.

    Objects.  The Python lists of symbols that are changed in place or
    copied live in a store of list objects, so that a copy and the list it
    was copied from are different objects; exceptions are results
    [Raise e]. *)

From Stdlib Require Import ZArith QArith Qround List Bool Lia Reals Qreals Psatz.
From Stdlib Require Import Permutation Sorted.
Import ListNotations.

Set Implicit Arguments.
Local Open Scope Z_scope.

(** ** Exact numbers: sums of Gaussian rationals times square roots *)

Module Surd.

(** Rationals are kept reduced, so that equal values are equal terms. *)
Definition qadd (a b : Q) : Q := Qred (Qplus a b).
Definition qmul (a b : Q) : Q := Qred (Qmult a b).
Definition qopp (a : Q) : Q := Qred (Qopp a).
Definition qinv (a : Q) : Q := Qred (Qinv a).
Definition qzero (a : Q) : bool := Qnum a =? 0.

(** One term [(re + im*i) * sqrt rad]. *)
Record term := Term { re : Q; im : Q; rad : positive }.

Definition term_zero (t : term) : bool := qzero (re t) && qzero (im t).

(** A number is a sum of terms, kept sorted by strictly increasing
    radicand, without zero terms and with square-free radicands. *)
Definition K := list term.

(** [square_part fuel d n s]: strips square factors [d*d], [(d+1)*(d+1)],
    ... from [n], collecting their roots in [s]. *)
Fixpoint square_part (fuel : nat) (d n s : Z) : Z * Z :=
  match fuel with
  | O => (s, n)
  | S f =>
      if n <? d * d then (s, n)
      else if n mod (d * d) =? 0 then square_part f d (n / (d * d)) (s * d)
      else square_part f (d + 1) n s
  end.

(** [extract_square n = (s, r)] with [n = s*s*r] and [r] square-free. *)
Definition extract_square (n : positive) : positive * positive :=
  let z := Z.pos n in
  let '(s, r) := square_part (S (Z.to_nat (Z.sqrt z + Z.log2 z))) 2 z 1 in
  (Z.to_pos s, Z.to_pos r).

(** Adds one term to a number in normal form. *)
Fixpoint insert_term (t : term) (a : K) : K :=
  match a with
  | [] => if term_zero t then [] else [t]
  | u :: a' =>
      match Pos.compare (rad t) (rad u) with
      | Lt => if term_zero t then a else t :: a
      | Eq =>
          let s := Term (qadd (re t) (re u)) (qadd (im t) (im u)) (rad u) in
          if term_zero s then a' else s :: a'
      | Gt => u :: insert_term t a'
      end
  end.

Definition kzero : K := [].
Definition kadd (a b : K) : K := fold_right insert_term b a.

Definition term_opp (t : term) : term := Term (qopp (re t)) (qopp (im t)) (rad t).
Definition kopp (a : K) : K := map term_opp a.
Definition ksub (a b : K) : K := kadd a (kopp b).

(** [(a + b i) sqrt m * (c + d i) sqrt n = s * ((ac - bd) + (ad + bc) i) sqrt r]
    where [m * n = s*s*r]. *)
Definition term_mul (t u : term) : term :=
  let '(s, r) := extract_square (rad t * rad u) in
  let s := inject_Z (Z.pos s) in
  Term (qmul s (qadd (qmul (re t) (re u)) (qopp (qmul (im t) (im u)))))
       (qmul s (qadd (qmul (re t) (im u)) (qmul (im t) (re u))))
       r.

Definition kmul (a b : K) : K :=
  fold_right (fun t acc => fold_right (fun u acc => insert_term (term_mul t u) acc) acc b)
             kzero a.

Definition term_conj (t : term) : term := Term (re t) (qopp (im t)) (rad t).
Definition kconj (a : K) : K := map term_conj a.

(** Embeddings of the rationals and of the imaginary unit. *)
Definition of_Q (q : Q) : K := insert_term (Term (Qred q) 0 1) kzero.
Definition of_Z (z : Z) : K := of_Q (inject_Z z).
Definition kI : K := [Term 0 1 1].

(** Principal square root of a rational: [sqrt (p/d) = sqrt (p*d) / d] for
    [p > 0], [i * sqrt (-q)] for [q < 0]. *)
Definition sqrt_Q (q : Q) : K :=
  match Qnum q with
  | Z0 => kzero
  | Zpos p =>
      let '(s, r) := extract_square (p * Qden q) in
      [Term (Qred (Z.pos s # Qden q)) 0 r]
  | Zneg p =>
      let '(s, r) := extract_square (p * Qden q) in
      [Term 0 (Qred (Z.pos s # Qden q)) r]
  end.

(** Inverse of a number with a single term:
    [1 / ((a + b i) sqrt n) = (a - b i) / ((a*a + b*b) * n) * sqrt n].
    Sums of several terms are not inverted. *)
Definition kinv (a : K) : option K :=
  match a with
  | [t] =>
      let nrm := qmul (qadd (qmul (re t) (re t)) (qmul (im t) (im t)))
                      (inject_Z (Z.pos (rad t))) in
      if qzero nrm then None
      else Some [Term (qmul (re t) (qinv nrm)) (qmul (qopp (im t)) (qinv nrm)) (rad t)]
  | _ => None
  end.

Definition kdiv (a b : K) : option K :=
  match kinv b with
  | Some b' => Some (kmul a b')
  | None => None
  end.

Definition Qeq_dec' (a b : Q) : {a = b} + {a <> b}.
Proof. decide equality; [apply Pos.eq_dec | apply Z.eq_dec]. Defined.

Definition term_eq_dec (t u : term) : {t = u} + {t <> u}.
Proof. decide equality; [apply Pos.eq_dec | apply Qeq_dec' | apply Qeq_dec']. Defined.

Definition K_eq_dec (a b : K) : {a = b} + {a <> b} := list_eq_dec term_eq_dec a b.

Definition is_zero (a : K) : bool := match a with [] => true | _ => false end.

End Surd.

Import Surd.

(** ** Python values: exceptions, list objects, symbols *)

Inductive exn : Type :=
| IndexError            (* list index or [pop] out of range *)
| ValueError            (* numpy / sympy constructor given a bad size *)
| ShapeError            (* sympy matrix operation on mismatched shapes *)
| NotImplementedError.  (* equation outside the modelled solver fragment *)

Inductive result (A : Type) : Type :=
| Ok (a : A)
| Raise (e : exn).
Arguments Ok {A} a.
Arguments Raise {A} e.

Definition rbind {A B} (r : result A) (f : A -> result B) : result B :=
  match r with
  | Ok a => f a
  | Raise e => Raise e
  end.

(** A sympy symbol [x<n>] as made by [sp.symbols('x:N')]; the integer read
    back by [int(str(s)[1:])] is [n]. *)
Inductive Symbol : Type := Sym (n : nat).
Definition symbol_index (s : Symbol) : nat := let 'Sym n := s in n.

Definition Symbol_eq_dec (a b : Symbol) : {a = b} + {a <> b}.
Proof. decide equality; apply Nat.eq_dec. Defined.

(** The store of Python list objects that hold symbols.  A variable bound
    to such a list holds a location; two variables may hold the same one. *)
Definition loc := nat.
Definition heap := list (list Symbol).

Definition heap_get (h : heap) (r : loc) : list Symbol := nth r h [].

Fixpoint heap_set (h : heap) (r : loc) (v : list Symbol) : heap :=
  match h, r with
  | [], _ => []
  | _ :: h', O => v :: h'
  | c :: h', S r' => c :: heap_set h' r' v
  end.

(** Computations that read and write the store and may raise. *)
Definition M (A : Type) : Type := heap -> result (A * heap).

Definition ret {A} (a : A) : M A := fun h => Ok (a, h).
Definition bind {A B} (m : M A) (f : A -> M B) : M B :=
  fun h => match m h with
           | Ok (a, h') => f a h'
           | Raise e => Raise e
           end.
Definition lift {A} (r : result A) : M A :=
  fun h => match r with Ok a => Ok (a, h) | Raise e => Raise e end.

Declare Scope monad_scope.
Delimit Scope monad_scope with monad.
Notation "x <- m ;; k" := (bind m (fun x => k))
  (at level 61, m at next level, right associativity) : monad_scope.
Notation "x <~ m ;; k" := (rbind m (fun x => k))
  (at level 61, m at next level, right associativity) : monad_scope.
Local Open Scope monad_scope.

(** [[*xs]]: a fresh list object. *)
Definition list_new (xs : list Symbol) : M loc :=
  fun h => Ok (length h, h ++ [xs]).

(** [copy(l)]: a fresh list object with the same elements. *)
Definition list_copy (r : loc) : M loc :=
  fun h => list_new (heap_get h r) h.

(** [l.pop(0)]: removes and returns the first element, in place. *)
Definition list_pop0 (r : loc) : M Symbol :=
  fun h => match heap_get h r with
           | [] => Raise IndexError
           | s :: rest => Ok (s, heap_set h r rest)
           end.

(** [l[:n]] and [l[n:]], with Python's reading of a negative bound. *)
Definition py_slice_to {A} (l : list A) (n : Z) : list A :=
  if n <? 0 then firstn (length l - Z.to_nat (- n)) l else firstn (Z.to_nat n) l.
Definition py_slice_from {A} (l : list A) (n : Z) : list A :=
  if n <? 0 then skipn (length l - Z.to_nat (- n)) l else skipn (Z.to_nat n) l.

(** A slice of a list object.  Python makes a new list for the slice; it
    is neither changed nor shared afterwards, so it is handed on as a value
    and no object is recorded for it.  The store therefore holds only the
    objects that are changed in place or copied ([symbols_list] and
    [symbols_copy]), not every list the interpreter allocates. *)
Definition list_slice_to (r : loc) (n : Z) : M (list Symbol) :=
  fun h => Ok (py_slice_to (heap_get h r) n, h).
Definition list_slice_from (r : loc) (n : Z) : M (list Symbol) :=
  fun h => Ok (py_slice_from (heap_get h r) n, h).

(** [l[i]] on an immutable sequence: a negative index counts from the end. *)
Definition py_getitem {A} (l : list A) (i : Z) : result A :=
  let i' := if i <? 0 then i + Z.of_nat (length l) else i in
  if i' <? 0 then Raise IndexError
  else match nth_error l (Z.to_nat i') with
       | Some a => Ok a
       | None => Raise IndexError
       end.

(** [for _ in range(n): acc.append(body)]. *)
Fixpoint repeatM {A} (n : nat) (body : M A) : M (list A) :=
  match n with
  | O => ret []
  | S n' => a <- body ;; l <- repeatM n' body ;; ret (a :: l)
  end.

(** [for x in xs: acc = body(acc, x)], stopping at the first exception. *)
Fixpoint foldM {A B} (body : B -> A -> M B) (xs : list A) (acc : B) : M B :=
  match xs with
  | [] => ret acc
  | x :: xs' => acc' <- body acc x ;; foldM body xs' acc'
  end.

Fixpoint enumerate_from {A} (k : Z) (xs : list A) : list (Z * A) :=
  match xs with
  | [] => []
  | x :: xs' => (k, x) :: enumerate_from (k + 1) xs'
  end.
Definition enumerate {A} (xs : list A) : list (Z * A) := enumerate_from 0 xs.

(** ** Symbolic expressions and matrices *)

(** The expressions the notebook forms are linear in the unknowns:
    [sum_s coeff_s * s + cst], with the unknowns sorted by index and no
    zero coefficient. *)
Record Expr := MkExpr { lin : list (Symbol * K); cst : K }.

Definition e_const (c : K) : Expr := MkExpr [] c.
Definition e_sym (s : Symbol) : Expr := MkExpr [(s, of_Z 1)] kzero.

Fixpoint lin_insert (s : Symbol) (c : K) (l : list (Symbol * K)) : list (Symbol * K) :=
  match l with
  | [] => if is_zero c then [] else [(s, c)]
  | (s', c') :: l' =>
      match Nat.compare (symbol_index s) (symbol_index s') with
      | Lt => if is_zero c then l else (s, c) :: l
      | Eq => let c'' := kadd c c' in if is_zero c'' then l' else (s', c'') :: l'
      | Gt => (s', c') :: lin_insert s c l'
      end
  end.

Definition e_add (a b : Expr) : Expr :=
  MkExpr (fold_right (fun sc acc => lin_insert (fst sc) (snd sc) acc) (lin b) (lin a))
         (kadd (cst a) (cst b)).

Definition e_scale (c : K) (a : Expr) : Expr :=
  MkExpr (fold_right (fun sc acc => lin_insert (fst sc) (kmul c (snd sc)) acc) [] (lin a))
         (kmul c (cst a)).

(** A sympy [Matrix]: its shape and its entries, row after row. *)
Record Matrix (A : Type) := Mat { nrows : nat; ncols : nat; flat : list A }.
Arguments Mat {A} nrows ncols flat.

Definition entry {A} (d : A) (m : Matrix A) (r c : nat) : A :=
  nth (r * ncols m + c) (flat m) d.

Definition mat_map {A B} (f : A -> B) (m : Matrix A) : Matrix B :=
  Mat (nrows m) (ncols m) (map f (flat m)).

(** [sp.Matrix(rows)] for a list of equally long rows; [sp.Matrix([])] is
    the 0 x 0 matrix. *)
Definition Matrix_of_rows {A} (rows : list (list A)) : Matrix A :=
  Mat (length rows) (match rows with [] => O | r :: _ => length r end) (concat rows).

(** [sp.Matrix(a)] for a one-dimensional array: a column vector. *)
Definition Matrix_of_array {A} (a : list A) : Matrix A := Mat (length a) 1 a.

(** [sp.Matrix(rows, cols, values)]. *)
Definition Matrix_of_flat {A} (rows cols : Z) (vals : list A) : result (Matrix A) :=
  if (rows <? 0) || (cols <? 0) then Raise ValueError
  else if Z.of_nat (length vals) =? rows * cols
       then Ok (Mat (Z.to_nat rows) (Z.to_nat cols) vals)
       else Raise ValueError.

Definition same_shape {A B} (a : Matrix A) (b : Matrix B) : bool :=
  (nrows a =? nrows b)%nat && (ncols a =? ncols b)%nat.

Fixpoint zip_with {A B C} (f : A -> B -> C) (a : list A) (b : list B) : list C :=
  match a, b with
  | x :: a', y :: b' => f x y :: zip_with f a' b'
  | _, _ => []
  end.

Definition mat_zip {A B C} (f : A -> B -> C) (a : Matrix A) (b : Matrix B)
  : result (Matrix C) :=
  if same_shape a b then Ok (Mat (nrows a) (ncols a) (zip_with f (flat a) (flat b)))
  else Raise ShapeError.

(** [a * b] for matrices: entry [(r, c)] is [sum_t a[r,t] * b[t,c]]. *)
Definition mat_mul_gen {A B C} (zero : C) (add : C -> C -> C) (mul : A -> B -> C)
  (da : A) (db : B) (a : Matrix A) (b : Matrix B) : result (Matrix C) :=
  if (ncols a =? nrows b)%nat then
    Ok (Mat (nrows a) (ncols b)
          (flat_map (fun r =>
             map (fun c =>
               fold_right (fun t acc => add (mul (entry da a r t) (entry db b t c)) acc)
                          zero (seq 0 (ncols a)))
               (seq 0 (ncols b)))
             (seq 0 (nrows a))))
  else Raise ShapeError.

(** Numeric matrices. *)
Definition mat_scale (c : K) (m : Matrix K) : Matrix K := mat_map (kmul c) m.
Definition mat_opp (m : Matrix K) : Matrix K := mat_map kopp m.
Definition mat_add (a b : Matrix K) : result (Matrix K) := mat_zip kadd a b.
Definition mat_sub (a b : Matrix K) : result (Matrix K) := mat_zip ksub a b.
Definition mat_mul (a b : Matrix K) : result (Matrix K) :=
  mat_mul_gen kzero kadd kmul kzero kzero a b.

(** Matrices of unknowns. *)
Definition emat_scale (c : K) (m : Matrix Expr) : Matrix Expr := mat_map (e_scale c) m.
Definition emat_mul_num (a : Matrix Expr) (b : Matrix K) : result (Matrix Expr) :=
  mat_mul_gen (e_const kzero) e_add (fun e c => e_scale c e) (e_const kzero) kzero a b.
Definition emat_add_num (a : Matrix Expr) (b : Matrix K) : result (Matrix Expr) :=
  mat_zip (fun e c => e_add e (e_const c)) a b.

(** ** The numpy and sympy calls the notebook makes *)

(** [int(q)]: truncation toward zero.  The source applies it to the
    double [2*j+1]; here it is applied to the exact value.  The two agree
    unless the rounding of [2*j+1] reaches an integer (see
    [rounding_margin]). *)
Definition int_of_Q (q : Q) : Z := Z.quot (Qnum q) (Z.pos (Qden q)).

(** [np.arange(start, stop, step)]: [ceil((stop - start) / step)] values
    [start + n * step].  The notebook asks for [dtype=complex]; every
    imaginary part is zero, so the values are kept as rationals.  The
    length and the elements are computed exactly, where numpy computes them
    in doubles: for half-integer spins of moderate size all the numbers
    involved are doubles and nothing is rounded; for other spins the length
    is that of the source as long as [2j + 1] keeps clear of the integers
    (see [rounding_margin]). *)
Definition np_arange (start stop step : Q) : list Q :=
  let len := Z.to_nat (Qceiling ((stop - start) / step)) in
  map (fun n => Qred (start + inject_Z (Z.of_nat n) * step)) (seq 0 len).

(** [np.diag(v)] for a one-dimensional [v]. *)
Definition np_diag (v : list Q) : Matrix K :=
  let n := length v in
  Mat n n (flat_map (fun r => map (fun c => if (r =? c)%nat then of_Q (nth r v 0%Q) else kzero)
                                  (seq 0 n))
                    (seq 0 n)).

(** [np.eye(D)]: negative dimensions are refused. *)
Definition np_eye (D : Z) : result (Matrix K) :=
  if D <? 0 then Raise ValueError
  else let n := Z.to_nat D in
       Ok (Mat n n (flat_map (fun r => map (fun c => if (r =? c)%nat then of_Z 1 else kzero)
                                           (seq 0 n))
                             (seq 0 n))).

(** [np.zeros(D)]. *)
Definition np_zeros (D : Z) : result (list K) :=
  if D <? 0 then Raise ValueError else Ok (repeat kzero (Z.to_nat D)).

(** [a[:, c]]: column [c] of a two-dimensional array. *)
Definition column (a : Matrix K) (c : nat) : list K :=
  map (fun r => entry kzero a r c) (seq 0 (nrows a)).

(** [sp.symbols('x:N')]: the symbols [x0 .. x(N-1)]. *)
Definition sp_symbols (N : Z) : list Symbol := map Sym (seq 0 (Z.to_nat N)).

(** [sp.nsimplify] is read as recovering the exact value a float stands
    for, which on the exact value itself changes nothing.  It is a
    best-effort recogniser: it does so for the spins tested below, but for
    entries it does not recognise (some occur from spin 23/2 on) it returns
    a rational approximation instead.  Statements about the values of the
    returned [J1] and [J2] are therefore made for the tested spins only;
    statements for all valid spins concern what does not depend on these
    values. *)
Definition nsimplify (v : K) : K := v.

(** A mapping from symbols to values, as an association list.  The order
    of the items of a solution of [sp.solve] is not that of sympy (which
    orders a solution by the names of the symbols); nothing below depends on
    it, since a Python dict is looked up by key and the reassembly sorts the
    merged items by index. *)
Definition dict := list (Symbol * K).

Fixpoint dict_get (s : Symbol) (d : dict) : option K :=
  match d with
  | [] => None
  | (s', v) :: d' => if Symbol_eq_dec s s' then Some v else dict_get s d'
  end.

(** [d[s] = v]: a key already present keeps its place. *)
Fixpoint dict_set (s : Symbol) (v : K) (d : dict) : dict :=
  match d with
  | [] => [(s, v)]
  | (s', v') :: d' =>
      if Symbol_eq_dec s s' then (s', v) :: d' else (s', v') :: dict_set s v d'
  end.

(** [sp.solve(eqs, symbols, dict=True)] on the systems the notebook builds:
    every equation is [a * s + c = 0] for one unknown [s] of [symbols],
    distinct from the unknowns of the other equations, and has the solution
    [s = - c / a]; an equation [c = 0] with [c] a nonzero number has none.
    Other systems are outside this fragment.  The items of the solution
    are listed in the order of the equations, where sympy lists them by the
    names of the symbols; only the set of items matters below. *)
Fixpoint solve_eqs (eqs : list Expr) (symbols : list Symbol) (acc : dict)
  : result (option dict) :=
  match eqs with
  | [] => Ok (Some acc)
  | e :: eqs' =>
      match lin e with
      | [] => if is_zero (cst e) then Raise NotImplementedError else Ok None
      | [(s, a)] =>
          if in_dec Symbol_eq_dec s symbols then
            match kdiv (kopp (cst e)) a, dict_get s acc with
            | Some v, None => solve_eqs eqs' symbols (dict_set s v acc)
            | _, _ => Raise NotImplementedError
            end
          else Raise NotImplementedError
      | _ => Raise NotImplementedError
      end
  end.

Definition sp_solve (eqs : Matrix Expr) (symbols : list Symbol) : result (list dict) :=
  r <~ solve_eqs (flat eqs) symbols [] ;;
  Ok (match r with Some d => [d] | None => [] end).

(** ** The notebook's functions *)

Definition initialize_generators (D : Z) (symbols_list : loc) : M (list (Matrix Expr)) :=
  symbols_copy <- list_copy symbols_list ;;
  repeatM 2
    (rows <- repeatM (Z.to_nat D)
               (cols <- repeatM (Z.to_nat D) (list_pop0 symbols_copy) ;;
                ret (map e_sym cols)) ;;
     ret (Matrix_of_rows rows)).

Definition initialize_eigenstates (eigenstates : Matrix K) : list (Matrix K) :=
  map (fun j => Matrix_of_array (column eigenstates j)) (seq 0 (ncols eigenstates)).

(** Stable insertion sort of the items by the index of their symbol. *)
Fixpoint insert_sorted (it : Symbol * K) (l : list (Symbol * K)) : list (Symbol * K) :=
  match l with
  | [] => [it]
  | it' :: l' =>
      if (symbol_index (fst it) <? symbol_index (fst it'))%nat then it :: l
      else it' :: insert_sorted it l'
  end.
Definition sorted_items (d : dict) : list (Symbol * K) :=
  fold_left (fun acc it => insert_sorted it acc) d [].

Definition merge_dicts (sols : list dict) : dict :=
  fold_left (fun acc d => fold_left (fun acc kv => dict_set (fst kv) (snd kv) acc) d acc)
            sols [].

Definition reassemble_mat_from_sols (D : Z) (sols : list dict) : result (Matrix K) :=
  let merged_dict := merge_dicts sols in
  let sorted_dict := sorted_items merged_dict in
  let sorted_vals := map snd sorted_dict in
  Matrix_of_flat D D sorted_vals.

(** The first right-hand-side term of the column equation for basis index
    [k] with magnetic number [m]: the raised state, or [null_ket]. *)
Definition m_plus1_state (j : Q) (symbolic_eigenstates : list (Matrix K))
  (null_ket : Matrix K) (k : Z) (m : Q) : result (Matrix K) :=
  if (k >=? 0) && Qle_bool (m + 1) j then
    let prefactor_up := sqrt_Q (j * (j + 1) - m * (m + 1)) in
    e <~ py_getitem symbolic_eigenstates (k - 1) ;;
    Ok (mat_scale prefactor_up e)
  else Ok null_ket.

(** The second term: the lowered state, or [null_ket]. *)
Definition m_minus1_state (j : Q) (js : list Q) (symbolic_eigenstates : list (Matrix K))
  (null_ket : Matrix K) (k : Z) (m : Q) : result (Matrix K) :=
  if (k <=? Z.of_nat (length js) - 1) && Qle_bool (- j) (m - 1) then
    let prefactor_down := sqrt_Q (j * (j + 1) - m * (m - 1)) in
    e <~ py_getitem symbolic_eigenstates (k + 1) ;;
    Ok (mat_scale prefactor_down e)
  else Ok null_ket.

(** [prefactor == 2.0]. *)
Definition is_two (prefactor : K) : bool :=
  if K_eq_dec prefactor (of_Z 2) then true else false.

Definition column_rhs (j : Q) (js : list Q) (symbolic_eigenstates : list (Matrix K))
  (null_ket : Matrix K) (prefactor : K) (k : Z) (m : Q) : result (Matrix K) :=
  up <~ m_plus1_state j symbolic_eigenstates null_ket k m ;;
  down <~ m_minus1_state j js symbolic_eigenstates null_ket k m ;;
  if is_two prefactor then mat_sub (mat_opp up) down
  else mat_add (mat_opp up) down.

(** [generators[i] = J]. *)
Fixpoint list_setitem {A} (l : list A) (i : nat) (v : A) : result (list A) :=
  match l, i with
  | [], _ => Raise IndexError
  | _ :: l', O => Ok (v :: l')
  | a :: l', S i' => l'' <~ list_setitem l' i' v ;; Ok (a :: l'')
  end.

(** One pass of the inner loop: the solution of the equation of column [k]. *)
Definition column_solution (j : Q) (js : list Q) (generators : list (Matrix Expr))
  (symbolic_eigenstates : list (Matrix K)) (null_ket : Matrix K)
  (symbols_list : loc) (num_vars : Z) (i : Z) (prefactor : K) (k : Z) (m : Q) : M dict :=
  rhs <- lift (column_rhs j js symbolic_eigenstates null_ket prefactor k m) ;;
  symbols <- (if is_two prefactor then list_slice_to symbols_list (num_vars / 2)
              else list_slice_from symbols_list (num_vars / 2)) ;;
  G <- lift (py_getitem generators i) ;;
  e <- lift (py_getitem symbolic_eigenstates k) ;;
  lhs <- lift (emat_mul_num (emat_scale prefactor G) e) ;;
  eqn <- lift (emat_add_num lhs rhs) ;;
  found <- lift (sp_solve eqn symbols) ;;
  lift (py_getitem found 0).

(** The inner loop [for k, m in enumerate(js)]: the solutions of all the
    column equations of generator [i], in the order of the columns. *)
Definition column_loop (j : Q) (js : list Q) (generators : list (Matrix Expr))
  (symbolic_eigenstates : list (Matrix K)) (null_ket : Matrix K)
  (symbols_list : loc) (num_vars : Z) (i : Z) (prefactor : K) : M (list dict) :=
  foldM (fun sols '(k, m) =>
           sol <- column_solution j js generators symbolic_eigenstates
                    null_ket symbols_list num_vars i prefactor k m ;;
           ret (sols ++ [sol]))
        (enumerate js) [].

(** One pass of the outer loop [for (i, prefactor) in enumerate([2.0, 2.0j])]:
    solve the columns, reassemble, simplify, store into [generators[i]]. *)
Definition generator_pass (j : Q) (js : list Q) (D : Z)
  (symbolic_eigenstates : list (Matrix K)) (null_ket : Matrix K)
  (symbols_list : loc) (num_vars : Z)
  (generators : list (Matrix Expr)) (ip : Z * K) : M (list (Matrix Expr)) :=
  let '(i, prefactor) := ip in
  sols <- column_loop j js generators symbolic_eigenstates null_ket
            symbols_list num_vars i prefactor ;;
  J <- lift (reassemble_mat_from_sols D sols) ;;
  lift (list_setitem generators (Z.to_nat i)
          (mat_map (fun v => e_const (nsimplify v)) J)).

Definition form_matrix_irrep_so3 (j : Q) : M (list (Matrix Expr)) :=
  let D := int_of_Q (2 * j + 1) in
  let js := np_arange j (- j - 1) (-1) in
  let J3 := np_diag js in
  eigenstates <- lift (np_eye D) ;;
  let num_vars := D ^ 2 * 2 in
  symbols_list <- list_new (sp_symbols num_vars) ;;
  generators <- initialize_generators D symbols_list ;;
  let symbolic_eigenstates := initialize_eigenstates eigenstates in
  zeros <- lift (np_zeros D) ;;
  let null_ket := Matrix_of_array zeros in
  generators <-
    foldM (generator_pass j js D symbolic_eigenstates null_ket symbols_list num_vars)
          (enumerate [of_Z 2; kmul (of_Z 2) kI]) generators ;;
  ret (generators ++ [mat_map e_const J3]).

(** A call from a fresh interpreter state; the store is dropped. *)
Definition run {A} (m : M A) : result A :=
  match m [] with
  | Ok (a, _) => Ok a
  | Raise e => Raise e
  end.

Definition numeric (ms : list (Matrix K)) : list (Matrix Expr) := map (mat_map e_const) ms.

Definition half : K := of_Q (1 # 2).

(** [sqrt n / 2]. *)
Definition root_over_2 (n : Q) : K := kmul half (sqrt_Q n).

(** ** Notions used to state the properties *)

(** The spins the properties are checked for. *)
Definition tested_spins : list Q := [0; 1 # 2; 1; 3 # 2; 2]%Q.

(** The number an expression without unknowns stands for. *)
Definition expr_value (e : Expr) : option K :=
  match lin e with
  | [] => Some (cst e)
  | _ => None
  end.

Fixpoint all_values (es : list Expr) : option (list K) :=
  match es with
  | [] => Some []
  | e :: es' =>
      match expr_value e, all_values es' with
      | Some v, Some vs => Some (v :: vs)
      | _, _ => None
      end
  end.

Definition mat_value (m : Matrix Expr) : option (Matrix K) :=
  match all_values (flat m) with
  | Some vs => Some (Mat (nrows m) (ncols m) vs)
  | None => None
  end.

(** The three returned matrices, when the call returns three matrices of
    numbers. *)
Definition generators_of (j : Q) : option (Matrix K * Matrix K * Matrix K) :=
  match run (form_matrix_irrep_so3 j) with
  | Ok [a; b; c] =>
      match mat_value a, mat_value b, mat_value c with
      | Some J1, Some J2, Some J3 => Some (J1, J2, J3)
      | _, _, _ => None
      end
  | _ => None
  end.

(** [A * B - B * A]. *)
Definition commutator (A B : Matrix K) : result (Matrix K) :=
  ab <~ mat_mul A B ;;
  ba <~ mat_mul B A ;;
  mat_sub ab ba.

Definition commutation_relations (J1 J2 J3 : Matrix K) : Prop :=
  commutator J1 J2 = Ok (mat_scale kI J3) /\
  commutator J2 J3 = Ok (mat_scale kI J1) /\
  commutator J3 J1 = Ok (mat_scale kI J2).

(** Conjugate transpose. *)
Definition dagger (A : Matrix K) : Matrix K :=
  Mat (ncols A) (nrows A)
      (flat_map (fun r => map (fun c => kconj (entry kzero A c r)) (seq 0 (nrows A)))
                (seq 0 (ncols A))).

(** [diag(j, j-1, ..., -j)] as the specification writes it: [D] rows and
    columns, [j - r] at place [(r, r)] and zero elsewhere. *)
Definition diag_descending (j : Q) (D : nat) : Matrix K :=
  Mat D D (flat_map (fun r => map (fun c => if (r =? c)%nat
                                            then of_Q (j - inject_Z (Z.of_nat r))
                                            else kzero)
                                  (seq 0 D))
                    (seq 0 D)).

Definition is_square {A} (D : nat) (m : Matrix A) : Prop :=
  nrows m = D /\ ncols m = D /\ length (flat m) = (D * D)%nat.

(** [q] has an integer value. *)
Definition is_integer (q : Q) : bool := Qnum q mod Z.pos (Qden q) =? 0.

(** [j] is a non-negative integer or half-integer. *)
Definition valid_spin (j : Q) : bool := Qle_bool 0 j && is_integer (2 * j).

(** The first [a] blocks of [b] elements of a list. *)
Fixpoint chunks {A} (a b : nat) (l : list A) : list (list A) :=
  match a with
  | O => []
  | S a' => firstn b l :: chunks a' b (skipn b l)
  end.

(** The matrix of unknowns that one pass of the loop of
    [initialize_generators] makes from the symbols [l]. *)
Definition unknown_matrix (D : nat) (l : list Symbol) : Matrix Expr :=
  Matrix_of_rows (map (map e_sym) (chunks D D l)).

(** The symbols a solution or a merged mapping binds. *)
Definition keys (d : dict) : list Symbol := map fst d.

(** [e_k]: the column vector of length [D] with [1] at place [k]. *)
Definition unit_vector (D k : nat) : Matrix K :=
  Mat D 1 (map (fun r => if (r =? k)%nat then of_Z 1 else kzero) (seq 0 D)).

(** The two prefactors of the outer loop and their inverses. *)
Definition is_prefactor (p : K) : Prop := p = of_Z 2 \/ p = kmul (of_Z 2) kI.

Definition prefactor_inverse (p : K) : K :=
  match kinv p with Some q => q | None => kzero end.

(** The solution of the equation of column [k]: the unknown of row [r] is
    minus the entry [r] of the right-hand side, divided by the prefactor. *)
Definition column_sol (d : nat) (us : list Symbol) (p : K) (k : nat) (rhs : Matrix K) : dict :=
  map (fun r => (nth (r * d + k) us (Sym 0),
                 kmul (kopp (nth r (flat rhs) kzero)) (prefactor_inverse p)))
      (seq 0 d).

(** A matrix with [d] rows and one column. *)
Definition is_column {A} (d : nat) (M : Matrix A) : Prop :=
  nrows M = d /\ ncols M = 1%nat /\ length (flat M) = d.

(** The right-hand side of column [(k, m)], once it is known to exist. *)
Definition rhs_of (j : Q) (js : list Q) (ses : list (Matrix K)) (null_ket : Matrix K)
  (p : K) (km : Z * Q) : Matrix K :=
  match column_rhs j js ses null_ket p (fst km) (snd km) with
  | Ok rhs => rhs
  | Raise _ => null_ket
  end.

(** ** Meaning of the exact numbers in the complex plane *)

Definition Cx : Type := (R * R)%type.
Definition Czero : Cx := (0%R, 0%R).
Definition Cadd (a b : Cx) : Cx := ((fst a + fst b)%R, (snd a + snd b)%R).
Definition Copp (a : Cx) : Cx := ((- fst a)%R, (- snd a)%R).
Definition Cmul (a b : Cx) : Cx :=
  ((fst a * fst b - snd a * snd b)%R, (fst a * snd b + snd a * fst b)%R).
Definition Cconj (a : Cx) : Cx := (fst a, (- snd a)%R).

Definition value_term (t : term) : Cx :=
  let s := sqrt (IZR (Z.pos (rad t))) in
  ((Q2R (re t) * s)%R, (Q2R (im t) * s)%R).

Definition value (a : K) : Cx := fold_right (fun t acc => Cadd (value_term t) acc) Czero a.

(** Matrices of complex numbers. *)
Definition value_mat (A : Matrix K) : Matrix Cx := mat_map value A.
Definition cmat_mul (A B : Matrix Cx) : result (Matrix Cx) :=
  mat_mul_gen Czero Cadd Cmul Czero Czero A B.
Definition cmat_sub (A B : Matrix Cx) : result (Matrix Cx) :=
  mat_zip (fun a b => Cadd a (Copp b)) A B.
Definition cmat_scale (c : Cx) (A : Matrix Cx) : Matrix Cx := mat_map (Cmul c) A.
Definition ccommutator (A B : Matrix Cx) : result (Matrix Cx) :=
  rbind (cmat_mul A B) (fun ab => rbind (cmat_mul B A) (fun ba => cmat_sub ab ba)).
Definition Ci : Cx := (0%R, 1%R).
Definition ccommutation_relations (J1 J2 J3 : Matrix Cx) : Prop :=
  ccommutator J1 J2 = Ok (cmat_scale Ci J3) /\
  ccommutator J2 J3 = Ok (cmat_scale Ci J1) /\
  ccommutator J3 J1 = Ok (cmat_scale Ci J2).
Definition cdagger (A : Matrix Cx) : Matrix Cx :=
  Mat (ncols A) (nrows A)
      (flat_map (fun r => map (fun c => Cconj (entry Czero A c r)) (seq 0 (nrows A)))
                (seq 0 (ncols A))).

(** The order of the items by the index of their symbol. *)
Definition item_le (a b : Symbol * K) : Prop :=
  (symbol_index (fst a) <= symbol_index (fst b))%nat.
Definition item_lt (a b : Symbol * K) : Prop :=
  (symbol_index (fst a) < symbol_index (fst b))%nat.

(** The value a mapping gives to a symbol, [0] when it gives none. *)
Definition dict_value (d : dict) (s : Symbol) : K :=
  match dict_get s d with Some v => v | None => kzero end.

(** The matrix the loop over the columns yields, in exact arithmetic, for
    the generator whose unknowns are [x_off .. x_(off + d^2 - 1)] and whose
    prefactor is [p]: the values of the merged column solutions in the order
    of the symbols. *)
Definition solved_generator (j : Q) (d off : nat) (p : K) : Matrix K :=
  let js := np_arange j (- j - 1) (-1) in
  Mat d d
    (map snd
       (sorted_items
          (merge_dicts
             (map (fun km => column_sol d (map Sym (seq off (d * d))) p (Z.to_nat (fst km))
                               (rhs_of j js (map (unit_vector d) (seq 0 d))
                                  (Mat d 1 (repeat kzero d)) p km))
                  (enumerate js))))).

(** The inputs on which the doubles of the source take the same course as
    the exact numbers: [-1024 <= j <= 1024] and, for [j > -1/2], the
    fractional part of [2j + 1] lies between [2^-20] and [1 - 2^-20].  For
    [j <= -1/2] in this range, [2*j+1] is computed without rounding error.
    For [j > -1/2] the doubles computed for [2*j+1] and for
    [(stop - start) / step] differ from the exact values by less than
    [2^-30], so that [int(2*j+1)] and the length of [js] are those of the
    exact values (lemma [margin_absorbs_rounding]). *)
Definition rounding_margin (j : Q) : bool :=
  let x := (2 * j + 1)%Q in
  let frac := (x - inject_Z (Qfloor x))%Q in
  Qle_bool (-1024) j && Qle_bool j 1024 &&
  (Qle_bool j (- (1 # 2)) ||
   (Qle_bool (1 # 1048576) frac && Qle_bool frac (1 - (1 # 1048576)))).

(** ** Properties *)

(** *** The exact numbers at work *)

Example sqrt_6_squared : kmul (sqrt_Q 6) (sqrt_Q 6) = of_Z 6.
Proof. reflexivity. Qed.

Example sqrt_2_times_sqrt_6 :
  kmul (sqrt_Q 2) (sqrt_Q 6) = kmul (of_Z 2) (sqrt_Q 3).
Proof. reflexivity. Qed.

Example sqrt_of_fraction : sqrt_Q (8 # 9) = kmul (of_Q (2 # 3)) (sqrt_Q 2).
Proof. reflexivity. Qed.

Example half_of_2i : kdiv (of_Z 1) (kmul (of_Z 2) kI) = Some (kmul (of_Q (-1 # 2)) kI).
Proof. reflexivity. Qed.

(** *** Reduced rationals and square roots *)

Lemma qadd_eq (a b : Q) : (qadd a b == a + b)%Q.
Proof. apply Qred_correct. Qed.
Lemma qmul_eq (a b : Q) : (qmul a b == a * b)%Q.
Proof. apply Qred_correct. Qed.
Lemma qopp_eq (a : Q) : (qopp a == - a)%Q.
Proof. apply Qred_correct. Qed.

Lemma qzero_iff (x : Q) : qzero x = true <-> (x == 0)%Q.
Proof.
  unfold qzero, Qeq; simpl; rewrite Z.eqb_eq; lia.
Qed.

Lemma qzero_false (x : Q) : ~ (x == 0)%Q -> qzero x = false.
Proof.
  intros H; destruct (qzero x) eqn:E; [|reflexivity].
  apply qzero_iff in E; contradiction.
Qed.

Lemma sqrt_Q_nonzero (q : Q) : (0 < q)%Q -> sqrt_Q q <> kzero.
Proof.
  unfold sqrt_Q, Qlt; destruct q as [[|p|p] d]; simpl; try lia.
  intros _; destruct (extract_square (p * d)); discriminate.
Qed.

Lemma sqrt_Q_times_one_nonzero (q : Q) :
  (0 < q)%Q -> kmul (sqrt_Q q) (of_Z 1) <> kzero.
Proof.
  unfold sqrt_Q, Qlt; destruct q as [[|p|p] d]; cbn [Qnum Qden]; try (simpl; lia).
  intros _; destruct (extract_square (p * d)) as [s r].
  change (of_Z 1) with [Term 1 0 1].
  unfold kmul; cbn [fold_right insert_term kzero].
  match goal with
  | |- context [term_zero ?t] => assert (Hz : term_zero t = false)
  end; [|rewrite Hz; discriminate].
  unfold term_zero, term_mul; cbn [re im rad].
  destruct (extract_square (r * 1)) as [s' r']; cbn [re im].
  apply andb_false_intro1, qzero_false.
  rewrite qmul_eq, qadd_eq, qopp_eq, !qmul_eq, Qred_correct.
  unfold Qeq; simpl; lia.
Qed.

(** *** The exact numbers as complex numbers *)

Lemma Cx_eq (a b : Cx) : fst a = fst b -> snd a = snd b -> a = b.
Proof. destruct a, b; simpl; intros -> ->; reflexivity. Qed.

Lemma Q2R_qzero (x : Q) : qzero x = true -> Q2R x = 0%R.
Proof.
  intros H; apply qzero_iff in H; rewrite (Qeq_eqR _ _ H).
  unfold Q2R; simpl; lra.
Qed.

Lemma Q2R_qadd (a b : Q) : Q2R (qadd a b) = (Q2R a + Q2R b)%R.
Proof. rewrite (Qeq_eqR _ _ (qadd_eq a b)); apply Q2R_plus. Qed.
Lemma Q2R_qmul (a b : Q) : Q2R (qmul a b) = (Q2R a * Q2R b)%R.
Proof. rewrite (Qeq_eqR _ _ (qmul_eq a b)); apply Q2R_mult. Qed.
Lemma Q2R_qopp (a : Q) : Q2R (qopp a) = (- Q2R a)%R.
Proof. rewrite (Qeq_eqR _ _ (qopp_eq a)); apply Q2R_opp. Qed.

Lemma value_term_zero (t : term) : term_zero t = true -> value_term t = Czero.
Proof.
  unfold term_zero; intros H; apply andb_prop in H; destruct H as [H1 H2].
  unfold value_term, Czero; cbv zeta.
  rewrite (Q2R_qzero _ H1), (Q2R_qzero _ H2); f_equal; lra.
Qed.

Lemma Cadd_zero_l (a : Cx) : Cadd Czero a = a.
Proof. apply Cx_eq; simpl; lra. Qed.
Lemma Cadd_zero_r (a : Cx) : Cadd a Czero = a.
Proof. apply Cx_eq; simpl; lra. Qed.
Lemma Cadd_assoc (a b c : Cx) : Cadd a (Cadd b c) = Cadd (Cadd a b) c.
Proof. apply Cx_eq; simpl; lra. Qed.
Lemma Cadd_comm (a b : Cx) : Cadd a b = Cadd b a.
Proof. apply Cx_eq; simpl; lra. Qed.

Lemma value_insert_term (t : term) (a : K) :
  value (insert_term t a) = Cadd (value_term t) (value a).
Proof.
  induction a as [|u a IH]; cbn [insert_term].
  - destruct (term_zero t) eqn:E; cbn [value fold_right]; [|reflexivity].
    rewrite (value_term_zero _ E), Cadd_zero_l; reflexivity.
  - destruct (Pos.compare_spec (rad t) (rad u)) as [E|E|E].
    + match goal with |- context [term_zero ?s] => destruct (term_zero s) eqn:Ez end.
      * apply value_term_zero in Ez. cbn [value fold_right].
        rewrite Cadd_assoc. fold (value a).
        replace (Cadd (value_term t) (value_term u)) with Czero;
          [rewrite Cadd_zero_l; reflexivity|].
        rewrite <- Ez; unfold value_term; cbn [re im rad]; rewrite E, !Q2R_qadd.
        apply Cx_eq; simpl; lra.
      * cbn [value fold_right]; fold (value a). rewrite Cadd_assoc; f_equal.
        unfold value_term; cbn [re im rad]; rewrite E, !Q2R_qadd.
        apply Cx_eq; simpl; lra.
    + destruct (term_zero t) eqn:Ez; [|reflexivity].
      rewrite (value_term_zero _ Ez), Cadd_zero_l; reflexivity.
    + cbn [value fold_right]; fold (value a); fold (value (insert_term t a)).
      rewrite IH, !Cadd_assoc, (Cadd_comm (value_term u)); reflexivity.
Qed.

Lemma value_kadd (a b : K) : value (kadd a b) = Cadd (value a) (value b).
Proof.
  unfold kadd; induction a as [|t a IH]; cbn [fold_right].
  - cbn [value fold_right]; rewrite Cadd_zero_l; reflexivity.
  - rewrite value_insert_term, IH; cbn [value fold_right]; fold (value a).
    rewrite Cadd_assoc; reflexivity.
Qed.

Lemma value_kopp (a : K) : value (kopp a) = Copp (value a).
Proof.
  unfold kopp; induction a as [|t a IH]; cbn [map value fold_right].
  - apply Cx_eq; simpl; lra.
  - fold (value (map term_opp a)); fold (value a); rewrite IH.
    unfold value_term, term_opp; cbn [re im rad]; rewrite !Q2R_qopp.
    apply Cx_eq; simpl; lra.
Qed.

Lemma value_ksub (a b : K) : value (ksub a b) = Cadd (value a) (Copp (value b)).
Proof. unfold ksub; rewrite value_kadd, value_kopp; reflexivity. Qed.

Lemma value_kconj (a : K) : value (kconj a) = Cconj (value a).
Proof.
  unfold kconj; induction a as [|t a IH]; cbn [map value fold_right].
  - apply Cx_eq; simpl; lra.
  - fold (value (map term_conj a)); fold (value a); rewrite IH.
    unfold value_term, term_conj; cbn [re im rad]; rewrite !Q2R_qopp.
    apply Cx_eq; simpl; lra.
Qed.

Lemma square_part_spec :
  forall fuel d n s s' n',
    0 < d -> 0 < n -> 0 < s ->
    square_part fuel d n s = (s', n') ->
    s' * s' * n' = s * s * n /\ 0 < s' /\ 0 < n'.
Proof.
  induction fuel as [|fuel IH]; intros d n s s' n' Hd Hn Hs H; cbn [square_part] in H.
  - inversion H; subst; auto.
  - destruct (n <? d * d) eqn:E1; [inversion H; subst; auto|].
    destruct (n mod (d * d) =? 0) eqn:E2.
    + apply Z.eqb_eq in E2; apply Z.ltb_ge in E1.
      assert (Hdd : 0 < d * d) by nia.
      assert (Hn' : n = d * d * (n / (d * d))) by (apply Z.div_exact; lia).
      assert (Hq : 0 < n / (d * d)) by (apply Z.div_str_pos; lia).
      apply IH in H; [|lia|exact Hq|nia].
      destruct H as (H1 & H2 & H3); split; [|auto].
      rewrite H1. rewrite Hn' at 2. ring.
    + apply IH in H; [exact H|lia|lia|lia].
Qed.

Lemma extract_square_spec (n s r : positive) :
  extract_square n = (s, r) -> Z.pos n = Z.pos s * Z.pos s * Z.pos r.
Proof.
  unfold extract_square.
  destruct (square_part _ 2 (Z.pos n) 1) as [s0 r0] eqn:E.
  apply square_part_spec in E; [|lia|lia|lia].
  destruct E as (H1 & H2 & H3); intros H; inversion H; subst.
  rewrite !Z2Pos.id by lia. lia.
Qed.

Lemma sqrt_extract_square (n s r : positive) :
  extract_square n = (s, r) ->
  sqrt (IZR (Z.pos n)) = (IZR (Z.pos s) * sqrt (IZR (Z.pos r)))%R.
Proof.
  intros H; apply extract_square_spec in H; rewrite H, !mult_IZR.
  rewrite sqrt_mult by (try apply Rmult_le_pos; apply IZR_le; lia).
  rewrite sqrt_square by (apply IZR_le; lia); reflexivity.
Qed.

Lemma Cmul_comm (a b : Cx) : Cmul a b = Cmul b a.
Proof. apply Cx_eq; simpl; lra. Qed.
Lemma Cmul_zero_l (a : Cx) : Cmul Czero a = Czero.
Proof. apply Cx_eq; simpl; lra. Qed.
Lemma Cmul_zero_r (a : Cx) : Cmul a Czero = Czero.
Proof. apply Cx_eq; simpl; lra. Qed.
Lemma Cmul_add_l (a b c : Cx) : Cmul (Cadd a b) c = Cadd (Cmul a c) (Cmul b c).
Proof. apply Cx_eq; simpl; lra. Qed.
Lemma Cmul_add_r (a b c : Cx) : Cmul a (Cadd b c) = Cadd (Cmul a b) (Cmul a c).
Proof. apply Cx_eq; simpl; lra. Qed.

Lemma Q2R_inject_Z (z : Z) : Q2R (inject_Z z) = IZR z.
Proof. unfold Q2R, inject_Z; simpl; lra. Qed.

Lemma value_term_mul (t u : term) :
  value_term (term_mul t u) = Cmul (value_term t) (value_term u).
Proof.
  unfold term_mul.
  destruct (extract_square (rad t * rad u)) as [s r] eqn:E.
  apply sqrt_extract_square in E.
  rewrite Pos2Z.inj_mul, mult_IZR, sqrt_mult in E by (apply IZR_le; lia).
  unfold value_term; cbn [re im rad].
  rewrite !Q2R_qmul, !Q2R_qadd, Q2R_qopp, !Q2R_qmul, Q2R_inject_Z.
  set (x := sqrt (IZR (Z.pos (rad t)))) in *.
  set (y := sqrt (IZR (Z.pos (rad u)))) in *.
  set (z := sqrt (IZR (Z.pos r))) in *.
  apply Cx_eq; cbn [fst snd Cmul].
  - transitivity ((Q2R (re t) * Q2R (re u) - Q2R (im t) * Q2R (im u)) * (x * y))%R;
      [rewrite E|]; ring.
  - transitivity ((Q2R (re t) * Q2R (im u) + Q2R (im t) * Q2R (re u)) * (x * y))%R;
      [rewrite E|]; ring.
Qed.

Lemma value_kmul (a b : K) : value (kmul a b) = Cmul (value a) (value b).
Proof.
  unfold kmul; induction a as [|t a IH]; cbn [fold_right].
  - cbn [value fold_right]; rewrite Cmul_zero_l; reflexivity.
  - cbn [value fold_right]; fold (value a); rewrite Cmul_add_l, <- IH.
    set (acc := fold_right _ kzero a). clearbody acc. clear IH.
    induction b as [|u b IHb]; cbn [fold_right].
    + cbn [value fold_right]; rewrite Cmul_zero_r, Cadd_zero_l; reflexivity.
    + rewrite value_insert_term, IHb, value_term_mul.
      cbn [value fold_right]; fold (value b).
      rewrite Cmul_add_r, Cadd_assoc; reflexivity.
Qed.

Lemma value_of_Q (q : Q) : value (of_Q q) = (Q2R q, 0%R).
Proof.
  unfold of_Q; rewrite value_insert_term; cbn [value fold_right kzero].
  unfold value_term; cbn [re im rad]; rewrite sqrt_1, (Qeq_eqR _ _ (Qred_correct q)).
  apply Cx_eq; simpl; unfold Q2R; simpl; lra.
Qed.

Lemma value_of_Z (z : Z) : value (of_Z z) = (IZR z, 0%R).
Proof. unfold of_Z; rewrite value_of_Q, Q2R_inject_Z; reflexivity. Qed.

Lemma value_kI : value kI = (0%R, 1%R).
Proof.
  unfold kI; cbn [value fold_right]; unfold value_term; cbn [re im rad].
  rewrite sqrt_1; apply Cx_eq; simpl; unfold Q2R; simpl; lra.
Qed.

Lemma Q2R_pos_frac (p d : positive) : Q2R (Z.pos p # d) = (IZR (Z.pos p) / IZR (Z.pos d))%R.
Proof. reflexivity. Qed.

(** [sqrt_Q] is the square root: real for [q >= 0], imaginary for [q < 0]. *)
Lemma value_sqrt_Q (q : Q) :
  value (sqrt_Q q) =
  if Qle_bool 0 q then (sqrt (Q2R q), 0%R) else (0%R, sqrt (- Q2R q)).
Proof.
  assert (Hroot : forall p d s r, extract_square (p * d) = (s, r) ->
            (Q2R (Qred (Z.pos s # d)) * sqrt (IZR (Z.pos r)))%R
            = sqrt (IZR (Z.pos p) / IZR (Z.pos d))).
  { intros p d s r E; apply sqrt_extract_square in E.
    rewrite (Qeq_eqR _ _ (Qred_correct _)), Q2R_pos_frac.
    assert (Hd : (0 < IZR (Z.pos d))%R) by (apply IZR_lt; lia).
    assert (Hp : (0 <= IZR (Z.pos p))%R) by (apply IZR_le; lia).
    replace (IZR (Z.pos p) / IZR (Z.pos d))%R
      with (IZR (Z.pos (p * d)) * (/ IZR (Z.pos d) * / IZR (Z.pos d)))%R
      by (rewrite Pos2Z.inj_mul, mult_IZR; field; lra).
    rewrite sqrt_mult_alt by (apply IZR_le; lia).
    rewrite sqrt_square by (left; apply Rinv_0_lt_compat; exact Hd).
    rewrite E; field; lra. }
  destruct q as [[|p|p] d]; unfold sqrt_Q; cbn [Qnum Qden].
  - replace (Qle_bool 0 (0 # d)) with true by reflexivity.
    cbn [value fold_right kzero]; unfold Czero; f_equal.
    unfold Q2R; cbn [Qnum Qden]; rewrite Rmult_0_l, sqrt_0; reflexivity.
  - replace (Qle_bool 0 (Z.pos p # d)) with true by reflexivity.
    destruct (extract_square (p * d)) as [s r] eqn:E.
    cbn [value fold_right]; unfold value_term; cbn [re im rad].
    rewrite (Hroot _ _ _ _ E), Q2R_pos_frac.
    apply Cx_eq; simpl; unfold Q2R; simpl; lra.
  - replace (Qle_bool 0 (Z.neg p # d)) with false by reflexivity.
    destruct (extract_square (p * d)) as [s r] eqn:E.
    cbn [value fold_right]; unfold value_term; cbn [re im rad].
    rewrite (Hroot _ _ _ _ E).
    replace (- Q2R (Z.neg p # d))%R with (IZR (Z.pos p) / IZR (Z.pos d))%R.
    + apply Cx_eq; simpl; unfold Q2R; simpl; lra.
    + unfold Q2R; cbn [Qnum Qden]. change (Z.neg p) with (- Z.pos p).
      rewrite opp_IZR; unfold Rdiv; ring.
Qed.


Lemma value_entry (A : Matrix K) (r c : nat) :
  entry Czero (value_mat A) r c = value (entry kzero A r c).
Proof.
  unfold entry, value_mat, mat_map; cbn [ncols flat].
  change Czero with (value kzero); apply map_nth.
Qed.

Lemma map_of_flat_map {A B C} (f : B -> C) (g : A -> list B) (l : list A) :
  map f (flat_map g l) = flat_map (fun x => map f (g x)) l.
Proof. induction l as [|x l IH]; simpl; [reflexivity|]. rewrite map_app, IH; reflexivity. Qed.

Lemma value_mat_mul (A B M : Matrix K) :
  mat_mul A B = Ok M -> cmat_mul (value_mat A) (value_mat B) = Ok (value_mat M).
Proof.
  unfold mat_mul, cmat_mul, mat_mul_gen.
  change (ncols (value_mat A)) with (ncols A); change (nrows (value_mat B)) with (nrows B).
  change (nrows (value_mat A)) with (nrows A); change (ncols (value_mat B)) with (ncols B).
  destruct (ncols A =? nrows B)%nat; [|discriminate].
  intros H; inversion H; subst M; clear H.
  unfold value_mat at 3; unfold mat_map; cbn [nrows ncols flat]; f_equal; f_equal.
  rewrite map_of_flat_map.
  apply flat_map_ext; intros r; rewrite map_map; apply map_ext; intros c.
  induction (seq 0 (ncols A)) as [|t l IH]; cbn [fold_right]; [reflexivity|].
  rewrite value_kadd, value_kmul, <- IH, !value_entry; reflexivity.
Qed.

Lemma value_zip_with (f : K -> K -> K) (g : Cx -> Cx -> Cx) :
  (forall a b, value (f a b) = g (value a) (value b)) ->
  forall a b, map value (zip_with f a b) = zip_with g (map value a) (map value b).
Proof.
  intros Hfg; induction a as [|x a IH]; intros [|y b]; cbn [zip_with map]; try reflexivity.
  rewrite Hfg, IH; reflexivity.
Qed.

Lemma value_mat_sub (A B M : Matrix K) :
  mat_sub A B = Ok M -> cmat_sub (value_mat A) (value_mat B) = Ok (value_mat M).
Proof.
  unfold mat_sub, cmat_sub, mat_zip, same_shape.
  change (ncols (value_mat A)) with (ncols A); change (nrows (value_mat B)) with (nrows B).
  change (nrows (value_mat A)) with (nrows A); change (ncols (value_mat B)) with (ncols B).
  destruct ((nrows A =? nrows B)%nat && (ncols A =? ncols B)%nat); [|discriminate].
  intros H; inversion H; subst M; clear H.
  unfold value_mat, mat_map; cbn [nrows ncols flat]; f_equal; f_equal.
  symmetry; apply value_zip_with; apply value_ksub.
Qed.

Lemma value_commutator (A B M : Matrix K) :
  commutator A B = Ok M -> ccommutator (value_mat A) (value_mat B) = Ok (value_mat M).
Proof.
  unfold commutator, ccommutator.
  destruct (mat_mul A B) as [ab|] eqn:E1; [|discriminate].
  destruct (mat_mul B A) as [ba|] eqn:E2; [|discriminate].
  cbn [rbind]; intros H.
  rewrite (@value_mat_mul _ _ _ E1), (@value_mat_mul _ _ _ E2); cbn [rbind].
  apply value_mat_sub; exact H.
Qed.

Lemma value_mat_scale (c : K) (A : Matrix K) :
  value_mat (mat_scale c A) = cmat_scale (value c) (value_mat A).
Proof.
  unfold value_mat, mat_scale, cmat_scale, mat_map; cbn [nrows ncols flat]; f_equal.
  rewrite !map_map; apply map_ext; intros a; apply value_kmul.
Qed.

Lemma value_dagger (A : Matrix K) : value_mat (dagger A) = cdagger (value_mat A).
Proof.
  unfold dagger, cdagger.
  change (ncols (value_mat A)) with (ncols A); change (nrows (value_mat A)) with (nrows A).
  unfold value_mat at 1; unfold mat_map; cbn [nrows ncols flat]; f_equal.
  rewrite map_of_flat_map.
  apply flat_map_ext; intros r; rewrite map_map; apply map_ext; intros c.
  rewrite value_kconj, value_entry; reflexivity.
Qed.

Lemma expr_value_const (e : Expr) (v : K) : expr_value e = Some v -> e = e_const v.
Proof.
  destruct e as [l c]; unfold expr_value, e_const; simpl.
  destruct l; [intros H; inversion H; reflexivity | discriminate].
Qed.

Lemma all_values_const (es : list Expr) :
  forall vs, all_values es = Some vs -> es = map e_const vs.
Proof.
  induction es as [|e es IH]; simpl; intros vs H.
  - inversion H; reflexivity.
  - destruct (expr_value e) as [v|] eqn:Ev; [|discriminate].
    destruct (all_values es) as [ws|]; [|discriminate].
    inversion H; subst; simpl.
    rewrite (expr_value_const _ Ev), (IH ws eq_refl); reflexivity.
Qed.

Lemma mat_value_const (m : Matrix Expr) (J : Matrix K) :
  mat_value m = Some J -> m = mat_map e_const J.
Proof.
  unfold mat_value; destruct m as [r c f]; simpl.
  destruct (all_values f) as [vs|] eqn:E; [|discriminate].
  intros H; inversion H; subst; unfold mat_map; simpl.
  rewrite (all_values_const _ E); reflexivity.
Qed.

Lemma generators_of_sound (j : Q) (J1 J2 J3 : Matrix K) :
  generators_of j = Some (J1, J2, J3) ->
  run (form_matrix_irrep_so3 j) = Ok (numeric [J1; J2; J3]).
Proof.
  unfold generators_of.
  destruct (run (form_matrix_irrep_so3 j)) as [[|a [|b [|c [|? ?]]]]|]; try discriminate.
  destruct (mat_value a) eqn:Ea; [|discriminate].
  destruct (mat_value b) eqn:Eb; [|discriminate].
  destruct (mat_value c) eqn:Ec; [|discriminate].
  intros H; inversion H; subst; unfold numeric; simpl.
  rewrite (mat_value_const _ Ea), (mat_value_const _ Eb), (mat_value_const _ Ec).
  reflexivity.
Qed.

(** *** The store *)

Lemma heap_set_length (h : heap) : forall r v, length (heap_set h r v) = length h.
Proof. induction h as [|c h IH]; intros [|r] v; simpl; auto. Qed.

Lemma heap_get_set_same (h : heap) :
  forall r v, (r < length h)%nat -> heap_get (heap_set h r v) r = v.
Proof.
  unfold heap_get; induction h as [|c h IH]; intros [|r] v Hr; simpl in *; try lia; auto.
  apply IH; lia.
Qed.

Lemma heap_set_set (h : heap) :
  forall r v w, heap_set (heap_set h r v) r w = heap_set h r w.
Proof. induction h as [|c h IH]; intros [|r] v w; simpl; auto. rewrite IH; auto. Qed.

Lemma heap_set_get (h : heap) : forall r, heap_set h r (heap_get h r) = h.
Proof.
  unfold heap_get; induction h as [|c h IH]; intros [|r]; simpl; auto.
  rewrite IH; auto.
Qed.

Lemma heap_get_new (h : heap) (v : list Symbol) : heap_get (h ++ [v]) (length h) = v.
Proof. unfold heap_get; rewrite app_nth2, Nat.sub_diag; auto. Qed.

Lemma heap_get_old (h : heap) (v : list Symbol) (r : loc) :
  (r < length h)%nat -> heap_get (h ++ [v]) r = heap_get h r.
Proof. intros Hr; unfold heap_get; apply app_nth1; auto. Qed.

Lemma heap_set_new (h : heap) (v w : list Symbol) :
  heap_set (h ++ [v]) (length h) w = h ++ [w].
Proof. induction h as [|c h IH]; simpl; auto. rewrite IH; auto. Qed.

(** *** Popping symbols in nested loops *)

Lemma chunks_length {A} (b : nat) : forall a (l : list A), length (chunks a b l) = a.
Proof. induction a; simpl; auto. Qed.

Lemma firstn_plus {A} (n m : nat) :
  forall l : list A, firstn (n + m) l = firstn n l ++ firstn m (skipn n l).
Proof.
  induction n as [|n IH]; intros [|x l]; simpl; auto.
  - rewrite firstn_nil; reflexivity.
  - rewrite IH; reflexivity.
Qed.

Lemma concat_chunks {A} (b : nat) :
  forall a (l : list A), concat (chunks a b l) = firstn (a * b) l.
Proof.
  induction a as [|a IH]; intros l; simpl; auto.
  rewrite IH, firstn_plus; reflexivity.
Qed.

Lemma repeat_pop (r : loc) :
  forall n h, (r < length h)%nat ->
    repeatM n (list_pop0 r) h =
    if (n <=? length (heap_get h r))%nat
    then Ok (firstn n (heap_get h r), heap_set h r (skipn n (heap_get h r)))
    else Raise IndexError.
Proof.
  induction n as [|n IH]; intros h Hr.
  - simpl; unfold ret; rewrite heap_set_get; reflexivity.
  - cbn [repeatM]; unfold bind at 1; unfold list_pop0 at 1.
    destruct (heap_get h r) as [|s rest] eqn:E; [reflexivity|].
    unfold bind at 1; rewrite IH by (rewrite heap_set_length; exact Hr).
    rewrite heap_get_set_same by exact Hr.
    change (S n <=? length (s :: rest))%nat with (n <=? length rest)%nat.
    destruct (n <=? length rest)%nat; [|reflexivity].
    unfold ret; simpl; rewrite heap_set_set; reflexivity.
Qed.

Lemma repeat_chunks {A} (f : list Symbol -> A) (b : nat) (r : loc) :
  forall a h, (r < length h)%nat ->
    repeatM a (x <- repeatM b (list_pop0 r) ;; ret (f x)) h =
    if (a * b <=? length (heap_get h r))%nat
    then Ok (map f (chunks a b (heap_get h r)),
             heap_set h r (skipn (a * b) (heap_get h r)))
    else Raise IndexError.
Proof.
  induction a as [|a IH]; intros h Hr.
  - simpl; unfold ret; rewrite heap_set_get; reflexivity.
  - cbn [repeatM]; unfold bind at 1; unfold bind at 1.
    rewrite repeat_pop by exact Hr.
    destruct (b <=? length (heap_get h r))%nat eqn:Eb.
    + apply Nat.leb_le in Eb.
      unfold ret at 1; unfold bind at 1.
      rewrite IH by (rewrite heap_set_length; exact Hr).
      rewrite heap_get_set_same by exact Hr.
      rewrite length_skipn.
      destruct (a * b <=? length (heap_get h r) - b)%nat eqn:Ea.
      * apply Nat.leb_le in Ea.
        replace (S a * b <=? length (heap_get h r))%nat with true
          by (symmetry; apply Nat.leb_le; simpl; lia).
        unfold ret; simpl.
        rewrite heap_set_set, skipn_skipn, (Nat.add_comm (a * b)); reflexivity.
      * apply Nat.leb_gt in Ea.
        replace (S a * b <=? length (heap_get h r))%nat with false
          by (symmetry; apply Nat.leb_gt; simpl; lia).
        reflexivity.
    + apply Nat.leb_gt in Eb.
      replace (S a * b <=? length (heap_get h r))%nat with false
        by (symmetry; apply Nat.leb_gt; simpl; lia).
      reflexivity.
Qed.

Lemma one_generator_run (n : nat) (r : loc) (h : heap) :
  (r < length h)%nat ->
  (rows <- repeatM n (cols <- repeatM n (list_pop0 r) ;; ret (map e_sym cols)) ;;
   ret (Matrix_of_rows rows)) h =
  if (n * n <=? length (heap_get h r))%nat
  then Ok (unknown_matrix n (heap_get h r), heap_set h r (skipn (n * n) (heap_get h r)))
  else Raise IndexError.
Proof.
  intros Hr; unfold bind at 1.
  rewrite (repeat_chunks (map e_sym) n (r := r)) by exact Hr.
  destruct (n * n <=? length (heap_get h r))%nat; reflexivity.
Qed.

Lemma initialize_generators_run (D : Z) (symbols_list : loc) (h : heap) :
  initialize_generators D symbols_list h =
  let n := Z.to_nat D in
  let l := heap_get h symbols_list in
  if (2 * (n * n) <=? length l)%nat
  then Ok ([unknown_matrix n l; unknown_matrix n (skipn (n * n) l)],
           h ++ [skipn (2 * (n * n)) l])
  else Raise IndexError.
Proof.
  unfold initialize_generators, list_copy, list_new.
  unfold bind at 1. cbv zeta.
  set (n := Z.to_nat D); set (l := heap_get h symbols_list).
  assert (Hc : (length h < length (h ++ [l]))%nat) by (rewrite length_app; simpl; lia).
  cbn [repeatM].
  unfold bind at 1.
  rewrite one_generator_run by exact Hc.
  rewrite heap_get_new, heap_set_new.
  destruct (n * n <=? length l)%nat eqn:E1.
  - apply Nat.leb_le in E1.
    unfold bind at 1; unfold bind at 1.
    rewrite one_generator_run by (rewrite length_app; simpl; lia).
    rewrite heap_get_new, heap_set_new, length_skipn, skipn_skipn.
    replace (n * n + n * n)%nat with (2 * (n * n))%nat by lia.
    destruct (n * n <=? length l - n * n)%nat eqn:E2.
    + apply Nat.leb_le in E2.
      replace (2 * (n * n) <=? length l)%nat with true
        by (symmetry; apply Nat.leb_le; lia).
      reflexivity.
    + apply Nat.leb_gt in E2.
      replace (2 * (n * n) <=? length l)%nat with false
        by (symmetry; apply Nat.leb_gt; lia).
      reflexivity.
  - apply Nat.leb_gt in E1.
    replace (2 * (n * n) <=? length l)%nat with false
      by (symmetry; apply Nat.leb_gt; lia).
    reflexivity.
Qed.

Lemma unknown_matrix_square (n : nat) (l : list Symbol) :
  (n * n <= length l)%nat -> is_square n (unknown_matrix n l).
Proof.
  intros Hl; unfold is_square, unknown_matrix, Matrix_of_rows; simpl.
  rewrite length_map, chunks_length; split; [reflexivity|]; split.
  - destruct n as [|n]; [reflexivity|].
    cbn [chunks map]; rewrite length_map, length_firstn; lia.
  - rewrite <- concat_map, concat_chunks, length_map, length_firstn; lia.
Qed.

Lemma unknown_matrix_flat (n : nat) (l : list Symbol) :
  flat (unknown_matrix n l) = map e_sym (firstn (n * n) l).
Proof.
  unfold unknown_matrix, Matrix_of_rows; simpl.
  rewrite <- concat_map, concat_chunks; reflexivity.
Qed.

(** C5, as the code has it: [initialize_generators] pops from a private
    copy of the caller's list.  With [D >= 0] and at least [2 D^2] symbols,
    the call returns two [D] x [D] matrices whose entries, read row after
    row, are the first [2 D^2] symbols in order, each used once; the only
    change to the store is the new copy, left without these symbols, and
    the caller's list is as before. *)
Theorem initialize_generators_pops_copy (D : Z) (symbols_list : loc) (h : heap) :
  0 <= D ->
  (symbols_list < length h)%nat ->
  2 * D ^ 2 <= Z.of_nat (length (heap_get h symbols_list)) ->
  let l := heap_get h symbols_list in
  let used := Z.to_nat (2 * D ^ 2) in
  exists G0 G1 h',
    initialize_generators D symbols_list h = Ok ([G0; G1], h') /\
    h' = h ++ [skipn used l] /\
    heap_get h' symbols_list = l /\
    is_square (Z.to_nat D) G0 /\ is_square (Z.to_nat D) G1 /\
    flat G0 ++ flat G1 = map e_sym (firstn used l).
Proof.
  intros HD Hr Hl l used.
  assert (Hused : used = (2 * (Z.to_nat D * Z.to_nat D))%nat) by (unfold used; nia).
  assert (Hn : (2 * (Z.to_nat D * Z.to_nat D) <= length l)%nat) by (unfold l; nia).
  exists (unknown_matrix (Z.to_nat D) l),
         (unknown_matrix (Z.to_nat D) (skipn (Z.to_nat D * Z.to_nat D) l)),
         (h ++ [skipn used l]).
  split; [|split; [reflexivity|split; [apply heap_get_old; exact Hr|]]].
  - rewrite initialize_generators_run; cbv zeta; fold l.
    replace (_ <=? _)%nat with true by (symmetry; apply Nat.leb_le; exact Hn).
    rewrite Hused; reflexivity.
  - split; [apply unknown_matrix_square; lia|].
    split; [apply unknown_matrix_square; rewrite length_skipn; lia|].
    rewrite !unknown_matrix_flat, <- map_app, Hused.
    replace (2 * (Z.to_nat D * Z.to_nat D))%nat
      with (Z.to_nat D * Z.to_nat D + Z.to_nat D * Z.to_nat D)%nat by lia.
    rewrite firstn_plus; reflexivity.
Qed.

Lemma initialize_generators_pops_copy_witness :
  exists G0 G1 h',
    initialize_generators 1 0%nat [[Sym 0; Sym 1; Sym 2]] = Ok ([G0; G1], h') /\
    h' = [[Sym 0; Sym 1; Sym 2]] ++ [[Sym 2]] /\
    heap_get h' 0%nat = [Sym 0; Sym 1; Sym 2] /\
    is_square 1 G0 /\ is_square 1 G1 /\
    flat G0 ++ flat G1 = map e_sym [Sym 0; Sym 1].
Proof.
  apply (@initialize_generators_pops_copy 1 0%nat [[Sym 0; Sym 1; Sym 2]]);
    simpl; lia.
Defined.

(** C5 as stated fails: after [initialize_generators(1, [x0, x1])] the
    caller's list still holds [x0, x1]; nothing was removed from it. *)
Lemma caller_list_not_consumed :
  exists gens h',
    initialize_generators 1 0%nat [[Sym 0; Sym 1]] = Ok (gens, h') /\
    heap_get h' 0%nat = [Sym 0; Sym 1] /\
    heap_get h' 0%nat <> skipn 2 [Sym 0; Sym 1].
Proof.
  eexists; eexists; split; [reflexivity|]; split; [reflexivity|]; discriminate.
Qed.

(** C8: with [D >= 0] and fewer than [2 D^2] symbols in the list, the
    call raises [IndexError]. *)
Theorem initialize_generators_too_few (D : Z) (symbols_list : loc) (h : heap) :
  0 <= D ->
  Z.of_nat (length (heap_get h symbols_list)) < 2 * D ^ 2 ->
  initialize_generators D symbols_list h = Raise IndexError.
Proof.
  intros HD Hl; rewrite initialize_generators_run; cbv zeta.
  replace (_ <=? _)%nat with false; [reflexivity|].
  symmetry; apply Nat.leb_gt; nia.
Qed.

Lemma initialize_generators_too_few_witness :
  0 <= 2 /\
  Z.of_nat (length (heap_get [map Sym (seq 0 7)] 0%nat)) < 2 * 2 ^ 2 /\
  initialize_generators 2 0%nat [map Sym (seq 0 7)] = Raise IndexError.
Proof.
  split; [lia|]; split; [simpl; lia|].
  apply initialize_generators_too_few; simpl; lia.
Defined.

(** *** Merging and ordering the column solutions *)

Lemma keys_dict_set_old (s : Symbol) (v : K) (d : dict) :
  In s (keys d) -> keys (dict_set s v d) = keys d.
Proof.
  unfold keys; induction d as [|[s' v'] d IH]; simpl; [intros []|].
  intros Hin; destruct (Symbol_eq_dec s s') as [E|Hne]; simpl; [reflexivity|].
  rewrite IH; [reflexivity|]. destruct Hin as [E|H]; [congruence|exact H].
Qed.

Lemma keys_dict_set_fresh (s : Symbol) (v : K) (d : dict) :
  ~ In s (keys d) -> keys (dict_set s v d) = keys d ++ [s].
Proof.
  unfold keys; induction d as [|[s' v'] d IH]; simpl; [reflexivity|].
  intros Hn; destruct (Symbol_eq_dec s s') as [E|Hne]; simpl.
  - exfalso; apply Hn; left; congruence.
  - rewrite IH; [reflexivity|]. intros H; apply Hn; right; exact H.
Qed.

Lemma keys_dict_set_NoDup (s : Symbol) (v : K) (d : dict) :
  NoDup (keys d) -> NoDup (keys (dict_set s v d)).
Proof.
  intros Hd; destruct (in_dec Symbol_eq_dec s (keys d)) as [Hin|Hn].
  - rewrite keys_dict_set_old by exact Hin; exact Hd.
  - rewrite keys_dict_set_fresh by exact Hn.
    apply NoDup_app; [exact Hd | repeat constructor; intros [] | ].
    intros x Hx [<-|[]]; exact (Hn Hx).
Qed.

Lemma keys_dict_set_In (s s' : Symbol) (v : K) (d : dict) :
  In s (keys (dict_set s' v d)) <-> s = s' \/ In s (keys d).
Proof.
  destruct (in_dec Symbol_eq_dec s' (keys d)) as [Hin|Hn].
  - rewrite keys_dict_set_old by exact Hin.
    split; [auto|intros [->|H]; auto].
  - rewrite keys_dict_set_fresh by exact Hn.
    rewrite in_app_iff; simpl; split; [intros [H|[<-|[]]]; auto|intros [->|H]; auto].
Qed.

Lemma merge_one_NoDup (d acc : dict) :
  NoDup (keys acc) ->
  NoDup (keys (fold_left (fun acc kv => dict_set (fst kv) (snd kv) acc) d acc)).
Proof.
  revert acc; induction d as [|kv d IH]; intros acc Hacc; simpl; [exact Hacc|].
  apply IH, keys_dict_set_NoDup, Hacc.
Qed.

Lemma merge_one_In (s : Symbol) (d acc : dict) :
  In s (keys (fold_left (fun acc kv => dict_set (fst kv) (snd kv) acc) d acc)) <->
  In s (keys acc) \/ In s (keys d).
Proof.
  revert acc; induction d as [|kv d IH]; intros acc; simpl; [tauto|].
  rewrite IH, keys_dict_set_In; intuition congruence.
Qed.

Lemma merge_all_NoDup (sols : list dict) (acc : dict) :
  NoDup (keys acc) ->
  NoDup (keys (fold_left
                 (fun acc d => fold_left (fun acc kv => dict_set (fst kv) (snd kv) acc) d acc)
                 sols acc)).
Proof.
  revert acc; induction sols as [|d sols IH]; intros acc Hacc; simpl; [exact Hacc|].
  apply IH, merge_one_NoDup, Hacc.
Qed.

Lemma merge_all_In (s : Symbol) (sols : list dict) (acc : dict) :
  In s (keys (fold_left
                (fun acc d => fold_left (fun acc kv => dict_set (fst kv) (snd kv) acc) d acc)
                sols acc)) <->
  In s (keys acc) \/ exists d, In d sols /\ In s (keys d).
Proof.
  revert acc; induction sols as [|d sols IH]; intros acc; simpl.
  - split; [auto|intros [H|[d [[] _]]]; exact H].
  - rewrite IH, merge_one_In; split.
    + intros [[H|H]|[d' [H1 H2]]]; eauto.
    + intros [H|[d' [[<-|H1] H2]]]; eauto.
Qed.

Lemma insert_sorted_length (it : Symbol * K) (l : list (Symbol * K)) :
  length (insert_sorted it l) = S (length l).
Proof.
  induction l as [|it' l IH]; simpl; [reflexivity|].
  destruct (_ <? _)%nat; simpl; [reflexivity|rewrite IH; reflexivity].
Qed.

Lemma sorted_items_length (d : dict) : length (sorted_items d) = length d.
Proof.
  unfold sorted_items.
  assert (H : forall acc, length (fold_left (fun acc it => insert_sorted it acc) d acc)
                          = (length d + length acc)%nat).
  { induction d as [|it d IH]; intros acc; simpl; [reflexivity|].
    rewrite IH, insert_sorted_length; lia. }
  rewrite H; simpl; lia.
Qed.

Lemma reassemble_run (D : Z) (sols : list dict) :
  reassemble_mat_from_sols D sols =
  if (0 <=? D) && (Z.of_nat (length (merge_dicts sols)) =? D * D)
  then Ok (Mat (Z.to_nat D) (Z.to_nat D) (map snd (sorted_items (merge_dicts sols))))
  else Raise ValueError.
Proof.
  unfold reassemble_mat_from_sols, Matrix_of_flat.
  rewrite length_map, sorted_items_length, orb_diag.
  destruct (D <? 0) eqn:E.
  - apply Z.ltb_lt in E.
    replace (0 <=? D) with false by (symmetry; apply Z.leb_gt; exact E).
    reflexivity.
  - apply Z.ltb_ge in E.
    replace (0 <=? D) with true by (symmetry; apply Z.leb_le; exact E).
    reflexivity.
Qed.

(** C9, as the code has it: the only check is the size check of the matrix
    constructor.  The call returns a matrix exactly when [D >= 0] and the
    number of distinct symbols over all mappings is [D * D], and raises
    [ValueError] otherwise; the merged mapping holds every symbol of every
    mapping once, whatever the indices are. *)
Theorem reassemble_checks_only_the_count (D : Z) (sols : list dict) :
  reassemble_mat_from_sols D sols =
    (if (0 <=? D) && (Z.of_nat (length (merge_dicts sols)) =? D * D)
     then Ok (Mat (Z.to_nat D) (Z.to_nat D) (map snd (sorted_items (merge_dicts sols))))
     else Raise ValueError) /\
  NoDup (keys (merge_dicts sols)) /\
  (forall s, In s (keys (merge_dicts sols)) <-> exists d, In d sols /\ In s (keys d)).
Proof.
  split; [apply reassemble_run|split].
  - apply merge_all_NoDup; constructor.
  - intros s; unfold merge_dicts; rewrite merge_all_In; simpl.
    split; [intros [[]|H]; exact H | auto].
Qed.

(** C9 as stated fails: a mapping with the single symbol [x5] (a gap: no
    [x0]) gives a 1 x 1 matrix, and so do two mappings that both hold [x0],
    the later value winning. *)
Lemma reassemble_accepts_gap_and_duplicate :
  reassemble_mat_from_sols 1 [[(Sym 5, of_Z 1)]] = Ok (Mat 1 1 [of_Z 1]) /\
  reassemble_mat_from_sols 1 [[(Sym 0, of_Z 1)]; [(Sym 0, of_Z 2)]]
    = Ok (Mat 1 1 [of_Z 2]).
Proof. split; reflexivity. Qed.

(** *** The dimension and the magnetic numbers *)

Lemma int_of_Q_nonneg (q : Q) : (0 <= q)%Q -> int_of_Q q = Qfloor q.
Proof.
  destruct q as [n d]; unfold Qle, int_of_Q, Qfloor; simpl; intros H.
  apply Z.quot_div_nonneg; lia.
Qed.

Lemma int_of_Q_small (q : Q) : (-1 < q)%Q -> (q < 1)%Q -> int_of_Q q = 0.
Proof.
  destruct q as [n d]; unfold Qlt, int_of_Q; simpl; intros H1 H2.
  apply Z.quot_small_iff; lia.
Qed.

Lemma int_of_Q_negative (q : Q) : (q <= -1)%Q -> int_of_Q q < 0.
Proof.
  destruct q as [n d]; unfold Qle, int_of_Q; simpl; intros H.
  replace n with (- - n) by lia.
  rewrite Z.quot_opp_l by lia.
  rewrite Z.quot_div_nonneg by lia.
  assert (0 < - n / Z.pos d) by (apply Z.div_str_pos; lia).
  lia.
Qed.

Lemma np_arange_spin (j : Q) :
  np_arange j (- j - 1) (-1) =
  map (fun n => Qred (j + inject_Z (Z.of_nat n) * (-1)))
      (seq 0 (Z.to_nat (Qceiling (2 * j + 1)))).
Proof.
  unfold np_arange.
  replace (Qceiling ((- j - 1 - j) / (-1))) with (Qceiling (2 * j + 1));
    [reflexivity|].
  apply Qceiling_comp; field.
Qed.

Lemma np_arange_spin_empty (j : Q) : (2 * j + 1 <= 0)%Q -> np_arange j (- j - 1) (-1) = [].
Proof.
  intros H; rewrite np_arange_spin.
  apply Qceiling_resp_le in H; change (Qceiling 0) with 0 in H.
  replace (Z.to_nat _) with O by lia; reflexivity.
Qed.

(** A spin [j <= -1] makes [np.eye] raise [ValueError] on the negative
    dimension; a spin with [-1 < j <= -1/2] is accepted and gives three
    0 x 0 matrices. *)
Lemma negative_spin_run (j : Q) :
  (j <= - (1 # 2))%Q ->
  run (form_matrix_irrep_so3 j) =
  if Qle_bool j (-1) then Raise ValueError
  else Ok (numeric [Mat 0 0 []; Mat 0 0 []; Mat 0 0 []]).
Proof.
  intros Hj.
  assert (Hjs : np_arange j (- j - 1) (-1) = [])
    by (apply np_arange_spin_empty; lra).
  unfold run, form_matrix_irrep_so3; rewrite Hjs.
  destruct (Qle_bool j (-1)) eqn:E.
  - apply Qle_bool_iff in E.
    assert (HD : int_of_Q (2 * j + 1) < 0) by (apply int_of_Q_negative; lra).
    unfold bind at 1, lift at 1, np_eye.
    replace (_ <? 0) with true by (symmetry; apply Z.ltb_lt; exact HD).
    reflexivity.
  - assert (HD : int_of_Q (2 * j + 1) = 0).
    { apply int_of_Q_small; [|lra].
      destruct (Qlt_le_dec (-1) (2 * j + 1)) as [H|H]; [exact H|].
      assert (Hle : (j <= -1)%Q) by lra.
      apply Qle_bool_iff in Hle; congruence. }
    rewrite HD; reflexivity.
Qed.

(** *** The basis vectors *)

Lemma nth_grid_from {A} (f : nat -> nat -> A) (d : A) (nc : nat) :
  forall nr s r c, (r < nr)%nat -> (c < nc)%nat ->
    nth (r * nc + c) (flat_map (fun r => map (f r) (seq 0 nc)) (seq s nr)) d = f (s + r)%nat c.
Proof.
  induction nr as [|nr IH]; intros s r c Hr Hc; [lia|].
  cbn [seq flat_map]. destruct r as [|r].
  - rewrite app_nth1 by (rewrite length_map, length_seq; simpl; lia).
    simpl. rewrite (nth_indep _ d (f s O)) by (rewrite length_map, length_seq; lia).
    rewrite map_nth, seq_nth by lia. rewrite Nat.add_0_r; reflexivity.
  - rewrite app_nth2 by (rewrite length_map, length_seq; simpl; lia).
    rewrite length_map, length_seq.
    replace (S r * nc + c - nc)%nat with (r * nc + c)%nat by (simpl; lia).
    rewrite IH by lia. f_equal; lia.
Qed.

Lemma nth_grid {A} (f : nat -> nat -> A) (d : A) (nr nc r c : nat) :
  (r < nr)%nat -> (c < nc)%nat ->
  nth (r * nc + c) (flat_map (fun r => map (f r) (seq 0 nc)) (seq 0 nr)) d = f r c.
Proof. intros Hr Hc; rewrite nth_grid_from by assumption; reflexivity. Qed.

Lemma np_eye_nat (D : nat) :
  np_eye (Z.of_nat D) =
  Ok (Mat D D (flat_map (fun r => map (fun c => if (r =? c)%nat then of_Z 1 else kzero)
                                      (seq 0 D))
                        (seq 0 D))).
Proof.
  unfold np_eye. replace (Z.of_nat D <? 0) with false by (symmetry; apply Z.ltb_ge; lia).
  rewrite Nat2Z.id; reflexivity.
Qed.

Lemma initialize_eigenstates_eye (D : nat) (eye : Matrix K) :
  np_eye (Z.of_nat D) = Ok eye ->
  initialize_eigenstates eye = map (unit_vector D) (seq 0 D).
Proof.
  rewrite np_eye_nat; intros H; inversion H; subst eye; clear H.
  unfold initialize_eigenstates; cbn [ncols nrows].
  apply map_ext_in; intros k Hk; apply in_seq in Hk.
  unfold Matrix_of_array, column, unit_vector; cbn [nrows].
  rewrite length_map, length_seq; f_equal.
  apply map_ext_in; intros r Hr; apply in_seq in Hr.
  unfold entry; cbn [ncols flat].
  rewrite (nth_grid (fun r c => if (r =? c)%nat then of_Z 1 else kzero)) by lia.
  reflexivity.
Qed.

Lemma py_getitem_nat {A} (l : list A) (i : Z) (a : A) :
  0 <= i -> nth_error l (Z.to_nat i) = Some a -> py_getitem l i = Ok a.
Proof.
  intros Hi H; unfold py_getitem.
  assert (E : (i <? 0) = false) by (apply Z.ltb_ge; exact Hi).
  cbv zeta; rewrite E; cbv beta iota; rewrite E, H; reflexivity.
Qed.

Lemma py_getitem_beyond {A} (l : list A) (i : Z) :
  Z.of_nat (length l) <= i -> py_getitem l i = Raise IndexError.
Proof.
  intros Hi; unfold py_getitem.
  assert (E : (i <? 0) = false) by (apply Z.ltb_ge; lia).
  cbv zeta; rewrite E; cbv beta iota; rewrite E.
  replace (nth_error l (Z.to_nat i)) with (@None A); [reflexivity|].
  symmetry; apply nth_error_None; lia.
Qed.

Lemma basis_getitem (D : nat) (i : Z) :
  0 <= i < Z.of_nat D ->
  py_getitem (map (unit_vector D) (seq 0 D)) i = Ok (unit_vector D (Z.to_nat i)).
Proof.
  intros Hi; apply py_getitem_nat; [lia|].
  rewrite nth_error_map, nth_error_seq.
  replace (Z.to_nat i <? D)%nat with true by (symmetry; apply Nat.ltb_lt; lia).
  reflexivity.
Qed.

(** *** The guards of the two ladder terms *)

Lemma enumerate_from_In {A} (l : list A) :
  forall s k (a : A),
    In (k, a) (enumerate_from s l) <-> s <= k /\ nth_error l (Z.to_nat (k - s)) = Some a.
Proof.
  induction l as [|x l IH]; intros s k a; cbn [enumerate_from In].
  - split; [intros []|intros [_ H]]. destruct (Z.to_nat (k - s)); discriminate.
  - rewrite IH; split.
    + intros [H|[H1 H2]].
      * inversion H; subst; rewrite Z.sub_diag; simpl; split; [lia|reflexivity].
      * split; [lia|].
        replace (Z.to_nat (k - s)) with (S (Z.to_nat (k - (s + 1)))) by lia.
        exact H2.
    + intros [H1 H2].
      destruct (Z.eq_dec k s) as [->|Hne].
      * rewrite Z.sub_diag in H2; simpl in H2; left; congruence.
      * right; split; [lia|].
        replace (Z.to_nat (k - s)) with (S (Z.to_nat (k - (s + 1)))) in H2 by lia.
        exact H2.
Qed.

Section HalfIntegerSpin.

(** [2j = n], so that [D = n + 1]. *)
Variables (j : Q) (n : nat).
Hypothesis H2j : (2 * j == inject_Z (Z.of_nat n))%Q.
Let D : nat := S n.

Lemma spin_plus_one : (2 * j + 1 == inject_Z (Z.of_nat D))%Q.
Proof.
  unfold D; rewrite Nat2Z.inj_succ; unfold Z.succ; rewrite inject_Z_plus, H2j.
  reflexivity.
Qed.

Lemma spin_dimension : int_of_Q (2 * j + 1) = Z.of_nat D.
Proof.
  assert (H0 : (0 <= inject_Z (Z.of_nat D))%Q)
    by (change 0%Q with (inject_Z 0); rewrite <- Zle_Qle; lia).
  rewrite int_of_Q_nonneg by (rewrite spin_plus_one; exact H0).
  rewrite (Qfloor_comp _ _ spin_plus_one); apply Qfloor_Z.
Qed.

Lemma spin_js :
  np_arange j (- j - 1) (-1) =
  map (fun k => Qred (j + inject_Z (Z.of_nat k) * (-1))) (seq 0 D).
Proof.
  rewrite np_arange_spin, (Qceiling_comp _ _ spin_plus_one), Qceiling_Z, Nat2Z.id.
  reflexivity.
Qed.

Lemma spin_js_In (k : Z) (m : Q) :
  In (k, m) (enumerate (np_arange j (- j - 1) (-1))) ->
  0 <= k < Z.of_nat D /\ (m == j - inject_Z k)%Q.
Proof.
  unfold enumerate; rewrite enumerate_from_In, spin_js, Z.sub_0_r.
  intros [Hk Hm]; rewrite nth_error_map, nth_error_seq in Hm.
  destruct (Z.to_nat k <? D)%nat eqn:E; [|discriminate].
  apply Nat.ltb_lt in E; split; [lia|].
  cbn [option_map Nat.add] in Hm.
  assert (Hm' : m = Qred (j + inject_Z (Z.of_nat (Z.to_nat k)) * -1)) by congruence.
  rewrite Hm', Qred_correct, Z2Nat.id by lia.
  ring.
Qed.

End HalfIntegerSpin.

Lemma mat_scale_unit_nonzero (c : K) (d i : nat) :
  (i < d)%nat -> kmul c (of_Z 1) <> kzero ->
  mat_scale c (unit_vector d i) <> Mat d 1 (repeat kzero d).
Proof.
  intros Hi Hc H; apply Hc.
  apply (f_equal (fun M => nth i (flat M) kzero)) in H.
  unfold mat_scale, mat_map, unit_vector in H; cbn [flat] in H.
  rewrite nth_repeat in H; rewrite <- H.
  rewrite (nth_indep _ kzero (kmul c kzero)) by (rewrite !length_map, length_seq; exact Hi).
  rewrite map_nth.
  rewrite (nth_indep _ kzero (if (d =? i)%nat then of_Z 1 else kzero))
    by (rewrite length_map, length_seq; exact Hi).
  rewrite (map_nth (fun r => if (r =? i)%nat then of_Z 1 else kzero)), seq_nth by exact Hi.
  rewrite Nat.add_0_l, Nat.eqb_refl; reflexivity.
Qed.

(** C6: for a spin [j] with [2j = n] a natural number and a column
    [(k, m)] of the loop, the right-hand side is
    [-(c+ e_(k-1)) -/+ (c- e_(k+1))]; the raising term is the null vector
    exactly when [k - 1 < 0], that is when [m = j], the lowering term
    exactly when [k + 1 >= D], that is when [m = -j]; in all other cases
    the term is the basis vector times a nonzero coefficient,
    [c+ = sqrt (k (D - k))] and [c- = sqrt ((k + 1) (D - 1 - k))], and
    differs from the null vector. *)
Theorem column_rhs_ladder_terms
  (j : Q) (n : nat) (k : Z) (m : Q) (eye : Matrix K) (zeros : list K) (prefactor : K) :
  (2 * j == inject_Z (Z.of_nat n))%Q ->
  let D := int_of_Q (2 * j + 1) in
  let js := np_arange j (- j - 1) (-1) in
  In (k, m) (enumerate js) ->
  np_eye D = Ok eye ->
  np_zeros D = Ok zeros ->
  let ses := initialize_eigenstates eye in
  let null_ket := Matrix_of_array zeros in
  let cu := sqrt_Q (j * (j + 1) - m * (m + 1)) in
  let cd := sqrt_Q (j * (j + 1) - m * (m - 1)) in
  let up := if k - 1 <? 0 then null_ket
            else mat_scale cu (unit_vector (Z.to_nat D) (Z.to_nat (k - 1))) in
  let down := if D <=? k + 1 then null_ket
              else mat_scale cd (unit_vector (Z.to_nat D) (Z.to_nat (k + 1))) in
  (k - 1 < 0 <-> (m == j)%Q) /\
  (D <= k + 1 <-> (m == - j)%Q) /\
  m_plus1_state j ses null_ket k m = Ok up /\
  m_minus1_state j js ses null_ket k m = Ok down /\
  column_rhs j js ses null_ket prefactor k m =
    (if is_two prefactor then mat_sub (mat_opp up) down else mat_add (mat_opp up) down) /\
  null_ket = Mat (Z.to_nat D) 1 (repeat kzero (Z.to_nat D)) /\
  (0 <= k - 1 ->
   cu <> kzero /\ up <> null_ket /\ value cu = (sqrt (IZR (k * (D - k))), 0%R)) /\
  (k + 1 < D ->
   cd <> kzero /\ down <> null_ket /\ value cd = (sqrt (IZR ((k + 1) * (D - 1 - k))), 0%R)).
Proof.
  intros H2j D js Hin Heye Hzeros ses null_ket cu cd up down.
  assert (HD : D = Z.of_nat (S n)) by (apply spin_dimension; exact H2j).
  destruct (@spin_js_In j n H2j k m Hin) as [Hk Hm].
  assert (Hlen : length js = S n)
    by (unfold js; rewrite (@spin_js j n H2j), length_map, length_seq; reflexivity).
  assert (Hses : ses = map (unit_vector (S n)) (seq 0 (S n)))
    by (apply initialize_eigenstates_eye; rewrite <- HD; exact Heye).
  assert (Hnull : null_ket = Mat (S n) 1 (repeat kzero (S n))).
  { unfold null_ket, Matrix_of_array; rewrite HD in Hzeros; unfold np_zeros in Hzeros.
    replace (Z.of_nat (S n) <? 0) with false in Hzeros by (symmetry; apply Z.ltb_ge; lia).
    rewrite Nat2Z.id in Hzeros.
    assert (Hz : zeros = repeat kzero (S n)) by congruence.
    rewrite Hz, repeat_length; reflexivity. }
  assert (Hk0 : (0 <= inject_Z k)%Q)
    by (change 0%Q with (inject_Z 0); rewrite <- Zle_Qle; lia).
  assert (Hkn : (inject_Z k <= inject_Z (Z.of_nat n))%Q) by (rewrite <- Zle_Qle; lia).
  assert (Hup : Qle_bool (m + 1) j = negb (k - 1 <? 0)).
  { destruct (k - 1 <? 0) eqn:E; simpl.
    - apply Z.ltb_lt in E. assert (k = 0) by lia; subst k.
      destruct (Qle_bool (m + 1) j) eqn:E'; [|reflexivity].
      exfalso; apply Qle_bool_iff in E'; rewrite Hm in E'.
      change (inject_Z 0) with 0%Q in E'; lra.
    - apply Z.ltb_ge in E. apply Qle_bool_iff; rewrite Hm.
      assert (1 <= inject_Z k)%Q by (change 1%Q with (inject_Z 1); rewrite <- Zle_Qle; lia).
      lra. }
  assert (Hdown : Qle_bool (- j) (m - 1) = negb (D <=? k + 1)).
  { destruct (D <=? k + 1) eqn:E; simpl.
    - apply Z.leb_le in E. assert (k = Z.of_nat n) by lia; subst k.
      destruct (Qle_bool (- j) (m - 1)) eqn:E'; [|reflexivity].
      exfalso; apply Qle_bool_iff in E'; rewrite Hm in E'; lra.
    - apply Z.leb_gt in E. apply Qle_bool_iff; rewrite Hm.
      assert (inject_Z k + 1 <= inject_Z (Z.of_nat n))%Q.
      { change 1%Q with (inject_Z 1); rewrite <- inject_Z_plus, <- Zle_Qle; lia. }
      lra. }
  assert (Hplus : m_plus1_state j ses null_ket k m = Ok up).
  { unfold m_plus1_state, up; rewrite Hup.
    replace (k >=? 0) with true by (symmetry; apply Z.geb_le; lia).
    destruct (k - 1 <? 0) eqn:E; cbn [negb andb]; [reflexivity|].
    apply Z.ltb_ge in E.
    rewrite Hses, basis_getitem by lia; cbn [rbind].
    rewrite HD, Nat2Z.id; reflexivity. }
  assert (Hminus : m_minus1_state j js ses null_ket k m = Ok down).
  { unfold m_minus1_state, down; rewrite Hdown, Hlen.
    replace (k <=? Z.of_nat (S n) - 1) with true by (symmetry; apply Z.leb_le; lia).
    destruct (D <=? k + 1) eqn:E; cbn [negb andb]; [reflexivity|].
    apply Z.leb_gt in E.
    rewrite Hses, basis_getitem by lia; cbn [rbind].
    rewrite HD, Nat2Z.id; reflexivity. }
  split; [|split; [|split; [exact Hplus|split; [exact Hminus|split; [|split; [|split]]]]]].
  - rewrite Hm; split; intros H.
    + assert (k = 0) by lia; subst k; change (inject_Z 0) with 0%Q; lra.
    + assert (Hq : (inject_Z k <= 0)%Q) by lra.
      change 0%Q with (inject_Z 0) in Hq; rewrite <- Zle_Qle in Hq; lia.
  - rewrite Hm; split; intros H.
    + assert (k = Z.of_nat n) by lia; subst k; lra.
    + assert (Hq : (inject_Z (Z.of_nat n) <= inject_Z k)%Q) by lra.
      rewrite <- Zle_Qle in Hq; lia.
  - unfold column_rhs; rewrite Hplus, Hminus; reflexivity.
  - rewrite HD, Nat2Z.id; exact Hnull.
  - intros H1.
    assert (H1q : (1 <= inject_Z k)%Q)
      by (change 1%Q with (inject_Z 1); rewrite <- Zle_Qle; lia).
    assert (Hpos : (0 < j * (j + 1) - m * (m + 1))%Q).
    { rewrite Hm.
      setoid_replace (j * (j + 1) - (j - inject_Z k) * (j - inject_Z k + 1))%Q
        with (inject_Z k * (2 * j + 1 - inject_Z k))%Q by ring.
      apply Qmult_lt_0_compat; lra. }
    split; [apply sqrt_Q_nonzero; exact Hpos|]. split.
    + unfold up; replace (k - 1 <? 0) with false by (symmetry; apply Z.ltb_ge; lia).
      rewrite Hnull, HD, Nat2Z.id.
      apply mat_scale_unit_nonzero; [lia|apply sqrt_Q_times_one_nonzero; exact Hpos].
    + unfold cu; rewrite value_sqrt_Q.
      replace (Qle_bool 0 _) with true by (symmetry; apply Qle_bool_iff; lra).
      f_equal; f_equal.
      assert (Hq : (j * (j + 1) - m * (m + 1)
                    == inject_Z k * (inject_Z (Z.of_nat n) + 1 - inject_Z k))%Q)
        by (rewrite Hm, <- H2j; ring).
      rewrite (Qeq_eqR _ _ Hq), Q2R_mult, Q2R_minus, Q2R_plus, !Q2R_inject_Z.
      rewrite HD, Nat2Z.inj_succ, mult_IZR, minus_IZR, succ_IZR.
      unfold Q2R; simpl; lra.
  - intros H1.
    assert (H1q : (inject_Z k + 1 <= inject_Z (Z.of_nat n))%Q).
    { change 1%Q with (inject_Z 1); rewrite <- inject_Z_plus, <- Zle_Qle; lia. }
    assert (Hpos : (0 < j * (j + 1) - m * (m - 1))%Q).
    { rewrite Hm.
      setoid_replace (j * (j + 1) - (j - inject_Z k) * (j - inject_Z k - 1))%Q
        with ((inject_Z k + 1) * (2 * j - inject_Z k))%Q by ring.
      apply Qmult_lt_0_compat; lra. }
    split; [apply sqrt_Q_nonzero; exact Hpos|]. split.
    + unfold down; replace (D <=? k + 1) with false by (symmetry; apply Z.leb_gt; lia).
      rewrite Hnull, HD, Nat2Z.id.
      apply mat_scale_unit_nonzero; [lia|apply sqrt_Q_times_one_nonzero; exact Hpos].
    + unfold cd; rewrite value_sqrt_Q.
      replace (Qle_bool 0 _) with true by (symmetry; apply Qle_bool_iff; lra).
      f_equal; f_equal.
      assert (Hq : (j * (j + 1) - m * (m - 1)
                    == (inject_Z k + 1) * (inject_Z (Z.of_nat n) - inject_Z k))%Q)
        by (rewrite Hm, <- H2j; ring).
      rewrite (Qeq_eqR _ _ Hq), Q2R_mult, Q2R_minus, Q2R_plus, !Q2R_inject_Z.
      rewrite HD, Nat2Z.inj_succ, mult_IZR, !minus_IZR, plus_IZR, succ_IZR.
      unfold Q2R; simpl; lra.
Qed.

Lemma column_rhs_ladder_terms_witness :
  let j := (1 # 2)%Q in
  let e0 := unit_vector 2 0 in
  let null_ket := Mat 2 1 [kzero; kzero] in
  (2 * j == inject_Z (Z.of_nat 1))%Q /\
  In (1, (-1 # 2)%Q) (enumerate (np_arange j (- j - 1) (-1))) /\
  np_eye 2 = Ok (Mat 2 2 [of_Z 1; kzero; kzero; of_Z 1]) /\
  np_zeros 2 = Ok [kzero; kzero] /\
  m_plus1_state j [e0; unit_vector 2 1] null_ket 1 (-1 # 2) = Ok (mat_scale (of_Z 1) e0) /\
  m_minus1_state j [j; (-1 # 2)%Q] [e0; unit_vector 2 1] null_ket 1 (-1 # 2) = Ok null_ket /\
  mat_scale (of_Z 1) e0 <> null_ket.
Proof.
  assert (Hin : In (1, (-1 # 2)%Q) (enumerate (np_arange (1 # 2) (- (1 # 2) - 1) (-1))))
    by (right; left; reflexivity).
  assert (Heye : np_eye 2 = Ok (Mat 2 2 [of_Z 1; kzero; kzero; of_Z 1])) by reflexivity.
  assert (Hz : np_zeros 2 = Ok [kzero; kzero]) by reflexivity.
  assert (H2j : (2 * (1 # 2) == inject_Z (Z.of_nat 1))%Q) by reflexivity.
  pose proof (@column_rhs_ladder_terms (1 # 2) 1 1 (-1 # 2) _ _ (of_Z 2) H2j Hin Heye Hz)
    as H.
  cbv zeta in H.
  destruct H as (_ & _ & Hup & Hdown & _ & _ & Hnz & _).
  split; [exact H2j|]. split; [exact Hin|]. split; [exact Heye|]. split; [exact Hz|].
  split; [exact Hup|]. split; [exact Hdown|].
  apply Hnz; lia.
Defined.

(** *** The equation of one column and its solution *)

Lemma e_scale_zero (e : Expr) : e_scale kzero e = e_const kzero.
Proof.
  destruct e as [l c]; unfold e_scale, e_const; cbn [lin cst]; f_equal.
  induction l as [|[s a] l IH]; cbn [fold_right fst snd]; [reflexivity|].
  rewrite IH; reflexivity.
Qed.

Lemma e_add_zero_l (e : Expr) : e_add (e_const kzero) e = e.
Proof. destruct e; reflexivity. Qed.

Lemma flat_map_singleton {A B} (f : A -> B) (l : list A) :
  flat_map (fun a => [f a]) l = map f l.
Proof. induction l; simpl; congruence. Qed.

Lemma zip_with_map_seq {A B C} (f : A -> B -> C) (g : nat -> A) (db : B) (bs : list B) :
  zip_with f (map g (seq 0 (length bs))) bs =
  map (fun r => f (g r) (nth r bs db)) (seq 0 (length bs)).
Proof.
  assert (H : forall s, zip_with f (map g (seq s (length bs))) bs =
                        map (fun r => f (g r) (nth (r - s) bs db)) (seq s (length bs))).
  { induction bs as [|b bs IH]; intros s; cbn [length seq map zip_with]; [reflexivity|].
    rewrite IH, Nat.sub_diag; cbn [nth]; f_equal.
    apply map_ext_in; intros r Hr; apply in_seq in Hr.
    replace (r - s)%nat with (S (r - S s)) by lia; reflexivity. }
  rewrite H; apply map_ext; intros r; rewrite Nat.sub_0_r; reflexivity.
Qed.

Section ColumnEquation.

Variables (d : nat) (us : list Symbol) (p : K) (k : nat).
Hypothesis Hus : length us = (d * d)%nat.
Hypothesis Hp : is_prefactor p.
Hypothesis Hk : (k < d)%nat.

Let G : Matrix Expr := unknown_matrix d us.
Let u (r : nat) : Symbol := nth (r * d + k) us (Sym 0).

Lemma unknown_matrix_shape : nrows G = d /\ ncols G = d.
Proof.
  destruct (@unknown_matrix_square d us) as (H1 & H2 & _); [lia|].
  split; assumption.
Qed.

Lemma scaled_entry (r t : nat) :
  (r < d)%nat -> (t < d)%nat ->
  entry (e_const kzero) (emat_scale p G) r t =
  e_scale p (e_sym (nth (r * d + t) us (Sym 0))).
Proof.
  intros Hr Ht; unfold entry, emat_scale, mat_map; cbn [ncols flat].
  destruct unknown_matrix_shape as [_ ->].
  unfold G; rewrite unknown_matrix_flat, <- Hus, firstn_all.
  assert (Hlt : (r * d + t < length us)%nat) by nia.
  rewrite (nth_indep _ (e_const kzero) (e_scale p (e_sym (Sym 0))))
    by (rewrite !length_map; exact Hlt).
  rewrite map_nth, map_nth; reflexivity.
Qed.

Lemma unit_entry (t : nat) :
  (t < d)%nat ->
  entry kzero (unit_vector d k) t 0 = if (t =? k)%nat then of_Z 1 else kzero.
Proof.
  intros Ht; unfold entry, unit_vector; cbn [ncols flat].
  rewrite Nat.mul_1_r, Nat.add_0_r.
  rewrite (nth_indep _ kzero (if (d =? k)%nat then of_Z 1 else kzero))
    by (rewrite length_map, length_seq; exact Ht).
  rewrite (map_nth (fun r => if (r =? k)%nat then of_Z 1 else kzero)), seq_nth by exact Ht.
  reflexivity.
Qed.

Lemma row_sum_from (r : nat) :
  (r < d)%nat ->
  forall len a, (a + len <= d)%nat ->
    fold_right (fun t acc =>
                  e_add (e_scale (entry kzero (unit_vector d k) t 0)
                                 (entry (e_const kzero) (emat_scale p G) r t)) acc)
               (e_const kzero) (seq a len) =
    if ((a <=? k) && (k <? a + len))%nat then MkExpr [(u r, p)] kzero else e_const kzero.
Proof.
  intros Hr; induction len as [|len IH]; intros a Ha.
  - cbn [seq fold_right].
    destruct (a <=? k)%nat eqn:E1, (k <? a + 0)%nat eqn:E2; try reflexivity.
    apply Nat.leb_le in E1; apply Nat.ltb_lt in E2; lia.
  - cbn [seq fold_right]; rewrite IH by lia.
    rewrite unit_entry, scaled_entry by lia.
    destruct (a =? k)%nat eqn:E.
    + apply Nat.eqb_eq in E; subst a.
      replace (S k <=? k)%nat with false by (symmetry; apply Nat.leb_gt; lia).
      replace (k <=? k)%nat with true by (symmetry; apply Nat.leb_le; lia).
      replace (k <? k + S len)%nat with true by (symmetry; apply Nat.ltb_lt; lia).
      cbn [andb]; fold (u r).
      destruct Hp as [-> | ->]; reflexivity.
    + apply Nat.eqb_neq in E.
      rewrite e_scale_zero, e_add_zero_l.
      replace (a <=? k)%nat with (S a <=? k)%nat.
      * replace (a + S len)%nat with (S a + len)%nat by lia; reflexivity.
      * destruct (S a <=? k)%nat eqn:E1, (a <=? k)%nat eqn:E2; try reflexivity;
          [apply Nat.leb_le in E1; apply Nat.leb_gt in E2
          |apply Nat.leb_gt in E1; apply Nat.leb_le in E2]; lia.
Qed.

Lemma column_lhs :
  emat_mul_num (emat_scale p G) (unit_vector d k) =
  Ok (Mat d 1 (map (fun r => MkExpr [(u r, p)] kzero) (seq 0 d))).
Proof.
  unfold emat_mul_num, mat_mul_gen.
  destruct unknown_matrix_shape as [Hr Hc].
  cbn [emat_scale mat_map nrows ncols unit_vector]; rewrite Hr, Hc, Nat.eqb_refl.
  f_equal; f_equal; cbn [seq map].
  rewrite (flat_map_singleton
             (fun r => fold_right
                (fun t acc =>
                   e_add (e_scale (entry kzero (unit_vector d k) t 0)
                                  (entry (e_const kzero) (emat_scale p G) r t)) acc)
                (e_const kzero) (seq 0 d))).
  apply map_ext_in; intros r Hin; apply in_seq in Hin.
  rewrite row_sum_from by lia.
  replace (0 <=? k)%nat with true by reflexivity.
  replace (k <? 0 + d)%nat with true by (symmetry; apply Nat.ltb_lt; lia).
  reflexivity.
Qed.

Variable rhs : Matrix K.
Hypothesis Hrhs : nrows rhs = d /\ ncols rhs = 1%nat /\ length (flat rhs) = d.

Lemma column_equation :
  rbind (emat_mul_num (emat_scale p G) (unit_vector d k)) (fun lhs => emat_add_num lhs rhs) =
  Ok (Mat d 1 (map (fun r => MkExpr [(u r, p)] (nth r (flat rhs) kzero)) (seq 0 d))).
Proof.
  rewrite column_lhs; cbn [rbind]; unfold emat_add_num, mat_zip, same_shape.
  destruct Hrhs as (H1 & H2 & H3); cbn [nrows ncols flat].
  rewrite H1, H2, !Nat.eqb_refl; cbn [andb]; f_equal; f_equal.
  rewrite <- H3 at 1.
  rewrite (zip_with_map_seq (fun e c => e_add e (e_const c))
                            (fun r => MkExpr [(u r, p)] kzero) kzero).
  rewrite H3; apply map_ext; intros r.
  destruct Hp as [-> | ->]; reflexivity.
Qed.

End ColumnEquation.

Lemma dict_get_fresh (s : Symbol) (acc : dict) : ~ In s (keys acc) -> dict_get s acc = None.
Proof.
  unfold keys; induction acc as [|[s' v] acc IH]; cbn [dict_get map fst In]; [reflexivity|].
  intros H; destruct (Symbol_eq_dec s s') as [E|_].
  - exfalso; apply H; left; congruence.
  - apply IH; intros Hin; apply H; right; exact Hin.
Qed.

Lemma dict_set_fresh (s : Symbol) (v : K) (acc : dict) :
  ~ In s (keys acc) -> dict_set s v acc = acc ++ [(s, v)].
Proof.
  unfold keys; induction acc as [|[s' v'] acc IH]; cbn [dict_set map fst In app]; [reflexivity|].
  intros H; destruct (Symbol_eq_dec s s') as [E|_].
  - exfalso; apply H; left; congruence.
  - rewrite IH; [reflexivity|]. intros Hin; apply H; right; exact Hin.
Qed.

Lemma prefactor_kinv (p : K) : is_prefactor p -> kinv p = Some (prefactor_inverse p).
Proof. intros [-> | ->]; reflexivity. Qed.

(** A system with one fresh unknown per equation, each with coefficient
    [p], is solved equation by equation. *)
Lemma solve_eqs_diagonal (symbols : list Symbol) (p : K) :
  is_prefactor p ->
  forall (rows : list (Symbol * K)) (acc : dict),
    NoDup (map fst rows) ->
    (forall s, In s (map fst rows) -> In s symbols /\ ~ In s (keys acc)) ->
    solve_eqs (map (fun sc => MkExpr [(fst sc, p)] (snd sc)) rows) symbols acc =
    Ok (Some (acc ++ map (fun sc => (fst sc, kmul (kopp (snd sc)) (prefactor_inverse p))) rows)).
Proof.
  intros Hp; induction rows as [|[s c] rows IH]; intros acc Hnd Hin.
  - cbn [map solve_eqs]; rewrite app_nil_r; reflexivity.
  - cbn [map solve_eqs lin cst fst snd].
    destruct (Hin s (or_introl eq_refl)) as [Hs Hfresh].
    destruct (in_dec Symbol_eq_dec s symbols) as [_|Hn]; [|contradiction].
    unfold kdiv; rewrite (prefactor_kinv Hp), (dict_get_fresh _ _ Hfresh).
    rewrite (dict_set_fresh _ _ _ Hfresh).
    inversion Hnd as [|? ? Hnotin Hnd']; subst.
    rewrite IH; [rewrite <- app_assoc; reflexivity | exact Hnd' |].
    intros s' Hs'; destruct (Hin s' (or_intror Hs')) as [H1 H2]; split; [exact H1|].
    unfold keys; rewrite map_app, in_app_iff; cbn [map fst In].
    intros [H|[H|[]]]; [exact (H2 H)|]. subst s'; exact (Hnotin Hs').
Qed.

Lemma nth_injective_NoDup {A} (l : list A) (d : A) (i i' : nat) :
  NoDup l -> (i < length l)%nat -> (i' < length l)%nat -> nth i l d = nth i' l d -> i = i'.
Proof. intros Hnd Hi Hi' H; apply (proj1 (NoDup_nth l d) Hnd); assumption. Qed.

Lemma column_unknowns_NoDup (d : nat) (us : list Symbol) (k : nat) :
  length us = (d * d)%nat -> NoDup us -> (k < d)%nat ->
  NoDup (map (fun r => nth (r * d + k) us (Sym 0)) (seq 0 d)).
Proof.
  intros Hus Hnd Hk.
  apply NoDup_map_NoDup_ForallPairs; [|apply seq_NoDup].
  intros r r' Hr Hr' H; apply in_seq in Hr, Hr'.
  apply nth_injective_NoDup in H; [nia|exact Hnd|nia|nia].
Qed.

Lemma sp_solve_column (d : nat) (us symbols : list Symbol) (p : K) (k : nat) (rhs : Matrix K) :
  length us = (d * d)%nat -> NoDup us -> incl us symbols ->
  is_prefactor p -> (k < d)%nat ->
  sp_solve (Mat d 1 (map (fun r => MkExpr [(nth (r * d + k) us (Sym 0), p)]
                                           (nth r (flat rhs) kzero))
                        (seq 0 d)))
           symbols =
  Ok [column_sol d us p k rhs].
Proof.
  intros Hus Hnd Hincl Hp Hk; unfold sp_solve; cbn [flat].
  pose (rows := map (fun r => (nth (r * d + k) us (Sym 0), nth r (flat rhs) kzero)) (seq 0 d)).
  assert (H1 : map (fun r => MkExpr [(nth (r * d + k) us (Sym 0), p)] (nth r (flat rhs) kzero))
                   (seq 0 d)
               = map (fun sc => MkExpr [(fst sc, p)] (snd sc)) rows)
    by (unfold rows; rewrite map_map; reflexivity).
  assert (H2 : map fst rows = map (fun r => nth (r * d + k) us (Sym 0)) (seq 0 d))
    by (unfold rows; rewrite map_map; reflexivity).
  rewrite H1, (solve_eqs_diagonal symbols Hp rows []).
  - cbn [rbind app]; unfold column_sol, rows; rewrite map_map; reflexivity.
  - rewrite H2; apply column_unknowns_NoDup; assumption.
  - rewrite H2; intros s Hs; split; [|intros []].
    apply in_map_iff in Hs; destruct Hs as (r & <- & Hr); apply in_seq in Hr.
    apply Hincl, nth_In; nia.
Qed.

Lemma column_solution_run
  (j : Q) (js : list Q) (generators : list (Matrix Expr)) (null_ket : Matrix K)
  (symbols_list : loc) (num_vars i : Z) (p : K) (k : Z) (m : Q) (h : heap)
  (d : nat) (us : list Symbol) (rhs : Matrix K) :
  let ses := map (unit_vector d) (seq 0 d) in
  let symbols := if is_two p then py_slice_to (heap_get h symbols_list) (num_vars / 2)
                 else py_slice_from (heap_get h symbols_list) (num_vars / 2) in
  column_rhs j js ses null_ket p k m = Ok rhs ->
  nrows rhs = d /\ ncols rhs = 1%nat /\ length (flat rhs) = d ->
  py_getitem generators i = Ok (unknown_matrix d us) ->
  length us = (d * d)%nat -> NoDup us -> incl us symbols ->
  is_prefactor p -> 0 <= k < Z.of_nat d ->
  column_solution j js generators ses null_ket symbols_list num_vars i p k m h =
  Ok (column_sol d us p (Z.to_nat k) rhs, h).
Proof.
  intros ses symbols Hrhs Hshape HG Hus Hnd Hincl Hp Hk.
  unfold column_solution.
  unfold bind at 1; unfold lift at 1; rewrite Hrhs.
  unfold bind at 1.
  assert (Hsl : (if is_two p then list_slice_to symbols_list (num_vars / 2)
                 else list_slice_from symbols_list (num_vars / 2)) h = Ok (symbols, h))
    by (unfold symbols; destruct (is_two p); reflexivity).
  rewrite Hsl.
  unfold bind at 1; unfold lift at 1; rewrite HG.
  unfold bind at 1; unfold lift at 1; unfold ses; rewrite basis_getitem by exact Hk.
  pose proof (@column_equation d us p (Z.to_nat k) Hus Hp ltac:(lia) rhs Hshape) as Heq.
  destruct (emat_mul_num (emat_scale p (unknown_matrix d us)) (unit_vector d (Z.to_nat k)))
    as [lhs|e] eqn:El; cbn [rbind] in Heq; [|discriminate].
  unfold bind at 1; unfold lift at 1.
  unfold bind at 1; unfold lift at 1; rewrite Heq.
  unfold bind at 1; unfold lift at 1.
  rewrite (@sp_solve_column d us symbols p (Z.to_nat k) rhs) by (assumption || lia).
  reflexivity.
Qed.

(** *** The right-hand side is always a column of length [D] *)

Lemma zip_with_length {A B C} (f : A -> B -> C) (a : list A) :
  forall b, length a = length b -> length (zip_with f a b) = length a.
Proof.
  induction a as [|x a IH]; intros [|y b] H; simpl in *; try lia.
  rewrite IH; lia.
Qed.

Lemma is_column_unit (c : K) (d i : nat) : is_column d (mat_scale c (unit_vector d i)).
Proof.
  unfold is_column, mat_scale, mat_map, unit_vector; cbn [nrows ncols flat].
  rewrite !length_map, length_seq; auto.
Qed.

Lemma is_column_null (d : nat) : is_column d (Mat d 1 (repeat kzero d)).
Proof. unfold is_column; cbn [nrows ncols flat]; rewrite repeat_length; auto. Qed.

Lemma is_column_zip (f : K -> K -> K) (d : nat) (a b : Matrix K) :
  is_column d a -> is_column d b ->
  exists c, mat_zip f (mat_opp a) b = Ok c /\ is_column d c.
Proof.
  intros (A1 & A2 & A3) (B1 & B2 & B3).
  unfold mat_zip, same_shape, mat_opp, mat_map; cbn [nrows ncols flat].
  rewrite A1, A2, B1, B2, !Nat.eqb_refl; cbn [andb].
  eexists; split; [reflexivity|].
  unfold is_column; cbn [nrows ncols flat].
  rewrite zip_with_length by (rewrite length_map; lia).
  rewrite length_map; auto.
Qed.

Section AnySpin.

(** [d] is the integer part of [2j + 1]. *)
Variables (j : Q) (d : nat).
Hypothesis Hd_hi : (2 * j + 1 < inject_Z (Z.of_nat d) + 1)%Q.

Let ses := map (unit_vector d) (seq 0 d).
Let null_ket := Mat d 1 (repeat kzero d).

Lemma m_plus1_state_column (k : Z) (m : Q) :
  0 <= k <= Z.of_nat d -> (m == j - inject_Z k)%Q ->
  exists up, m_plus1_state j ses null_ket k m = Ok up /\ is_column d up.
Proof.
  intros Hk Hm; unfold m_plus1_state.
  destruct ((k >=? 0) && Qle_bool (m + 1) j) eqn:E.
  - apply andb_prop in E; destruct E as [_ E]; apply Qle_bool_iff in E.
    rewrite Hm in E.
    assert (Hq : (inject_Z 1 <= inject_Z k)%Q) by (change (inject_Z 1) with 1%Q; lra).
    rewrite <- Zle_Qle in Hq.
    unfold ses; rewrite basis_getitem by lia; cbn [rbind].
    eexists; split; [reflexivity|apply is_column_unit].
  - eexists; split; [reflexivity|apply is_column_null].
Qed.

Lemma m_minus1_state_column (js : list Q) (k : Z) (m : Q) :
  0 <= k <= Z.of_nat d -> (m == j - inject_Z k)%Q ->
  exists down, m_minus1_state j js ses null_ket k m = Ok down /\ is_column d down.
Proof.
  intros Hk Hm; unfold m_minus1_state.
  destruct ((k <=? Z.of_nat (length js) - 1) && Qle_bool (- j) (m - 1)) eqn:E.
  - apply andb_prop in E; destruct E as [_ E]; apply Qle_bool_iff in E.
    rewrite Hm in E.
    assert (Hq : (inject_Z (k + 1) < inject_Z (Z.of_nat d))%Q)
      by (rewrite inject_Z_plus; change (inject_Z 1) with 1%Q; lra).
    rewrite <- Zlt_Qlt in Hq.
    unfold ses; rewrite basis_getitem by lia; cbn [rbind].
    eexists; split; [reflexivity|apply is_column_unit].
  - eexists; split; [reflexivity|apply is_column_null].
Qed.

Lemma column_rhs_column (js : list Q) (p : K) (k : Z) (m : Q) :
  0 <= k <= Z.of_nat d -> (m == j - inject_Z k)%Q ->
  exists rhs, column_rhs j js ses null_ket p k m = Ok rhs /\ is_column d rhs.
Proof.
  intros Hk Hm; unfold column_rhs.
  destruct (m_plus1_state_column Hk Hm) as (up & -> & Hup).
  destruct (m_minus1_state_column js Hk Hm) as (down & -> & Hdown).
  cbn [rbind]; destruct (is_two p); apply is_column_zip; assumption.
Qed.

End AnySpin.

(** *** The loop over the columns *)

Lemma column_solution_beyond
  (j : Q) (js : list Q) (generators : list (Matrix Expr)) (ses : list (Matrix K))
  (null_ket : Matrix K) (symbols_list : loc) (num_vars i : Z) (p : K) (k : Z) (m : Q)
  (h : heap) (rhs : Matrix K) (G : Matrix Expr) :
  column_rhs j js ses null_ket p k m = Ok rhs ->
  py_getitem generators i = Ok G ->
  Z.of_nat (length ses) <= k ->
  column_solution j js generators ses null_ket symbols_list num_vars i p k m h =
  Raise IndexError.
Proof.
  intros Hrhs HG Hk; unfold column_solution.
  unfold bind at 1; unfold lift at 1; rewrite Hrhs.
  unfold bind at 1.
  destruct (is_two p); cbn [list_slice_to list_slice_from];
    unfold bind at 1; unfold lift at 1; rewrite HG;
    unfold bind at 1; unfold lift at 1; rewrite py_getitem_beyond by exact Hk;
    reflexivity.
Qed.

Section ColumnLoop.

Variables (j : Q) (js : list Q) (d : nat).
Variables (generators : list (Matrix Expr)) (symbols_list : loc) (num_vars i : Z).
Variables (p : K) (h : heap) (us : list Symbol).

Let ses := map (unit_vector d) (seq 0 d).
Let null_ket := Mat d 1 (repeat kzero d).
Let symbols := if is_two p then py_slice_to (heap_get h symbols_list) (num_vars / 2)
               else py_slice_from (heap_get h symbols_list) (num_vars / 2).
Let body := fun (sols : list dict) (km : Z * Q) =>
              let '(k, m) := km in
              sol <- column_solution j js generators ses null_ket symbols_list
                       num_vars i p k m ;;
              ret (sols ++ [sol]).

Hypothesis Hd_hi : (2 * j + 1 < inject_Z (Z.of_nat d) + 1)%Q.
Hypothesis HG : py_getitem generators i = Ok (unknown_matrix d us).
Hypothesis Hus : length us = (d * d)%nat.
Hypothesis Hnd : NoDup us.
Hypothesis Hincl : incl us symbols.
Hypothesis Hp : is_prefactor p.

Lemma column_step (k : Z) (m : Q) (sols : list dict) :
  0 <= k < Z.of_nat d -> (m == j - inject_Z k)%Q ->
  body sols (k, m) h =
  Ok (sols ++ [column_sol d us p (Z.to_nat k) (rhs_of j js ses null_ket p (k, m))], h).
Proof.
  intros Hk Hm; unfold body, ses, null_ket; cbv beta iota.
  destruct (@column_rhs_column j d Hd_hi js p k m ltac:(lia) Hm) as (rhs & Hrhs & Hcol).
  unfold bind at 1.
  rewrite (@column_solution_run j js generators _ symbols_list num_vars i p k m h
             d us rhs Hrhs Hcol HG Hus Hnd Hincl Hp Hk).
  unfold rhs_of; cbn [fst snd]; rewrite Hrhs; reflexivity.
Qed.

Lemma column_step_beyond (m : Q) (sols : list dict) :
  (m == j - inject_Z (Z.of_nat d))%Q ->
  body sols (Z.of_nat d, m) h = Raise IndexError.
Proof.
  intros Hm; unfold body, ses, null_ket; cbv beta iota.
  destruct (@column_rhs_column j d Hd_hi js p (Z.of_nat d) m ltac:(lia) Hm)
    as (rhs & Hrhs & _).
  unfold bind at 1.
  rewrite (@column_solution_beyond j js generators _ _ symbols_list num_vars i p
             (Z.of_nat d) m h rhs _ Hrhs HG); [reflexivity|].
  rewrite length_map, length_seq; lia.
Qed.

(** When every column index is below [d], every column is solved. *)
Lemma columns_solved (cols : list (Z * Q)) :
  (forall k m, In (k, m) cols -> 0 <= k < Z.of_nat d /\ (m == j - inject_Z k)%Q) ->
  forall sols,
    foldM body cols sols h =
    Ok (sols ++ map (fun km => column_sol d us p (Z.to_nat (fst km))
                                 (rhs_of j js ses null_ket p km)) cols, h).
Proof.
  induction cols as [|[k m] cols IH]; intros Hcols sols.
  - cbn [foldM map]; rewrite app_nil_r; reflexivity.
  - cbn [foldM]; unfold bind at 1.
    destruct (Hcols k m (or_introl eq_refl)) as [Hk Hm].
    rewrite (column_step sols Hk Hm).
    rewrite IH by (intros k' m' H; apply Hcols; right; exact H).
    rewrite <- app_assoc; reflexivity.
Qed.

(** When some column has index [d], the loop stops there with [IndexError]. *)
Lemma columns_overrun (cols : list (Z * Q)) :
  (forall k m, In (k, m) cols -> 0 <= k <= Z.of_nat d /\ (m == j - inject_Z k)%Q) ->
  (exists m, In (Z.of_nat d, m) cols) ->
  forall sols, foldM body cols sols h = Raise IndexError.
Proof.
  induction cols as [|[k m] cols IH]; intros Hcols [m' Hin] sols; [destruct Hin|].
  cbn [foldM]; unfold bind at 1.
  destruct (Hcols k m (or_introl eq_refl)) as [Hk Hm].
  destruct (Z.eq_dec k (Z.of_nat d)) as [->|Hne].
  - rewrite (column_step_beyond sols Hm); reflexivity.
  - rewrite (column_step sols (k := k) ltac:(lia) Hm).
    apply IH; [intros k' m'' H; apply Hcols; right; exact H|].
    destruct Hin as [E|Hin]; [inversion E; lia|exists m'; exact Hin].
Qed.

End ColumnLoop.

(** *** Integer and non-integer values of [2j + 1] *)

Lemma is_integer_iff (q : Q) : is_integer q = true <-> exists z, (q == inject_Z z)%Q.
Proof.
  destruct q as [n d]; unfold is_integer, Qeq, inject_Z; cbn [Qnum Qden].
  rewrite Z.eqb_eq; split.
  - intros H; exists (n / Z.pos d).
    rewrite Z.mul_1_r, Z.mul_comm; apply Z.div_exact; [lia|exact H].
  - intros [z Hz]; rewrite Z.mul_1_r in Hz; subst n; apply Z_mod_mult.
Qed.

Lemma Qceiling_noninteger (x : Q) : is_integer x = false -> Qceiling x = Qfloor x + 1.
Proof.
  destruct x as [n d]; unfold is_integer, Qceiling, Qfloor, Qopp; cbn [Qnum Qden].
  rewrite Z.eqb_neq; intros H.
  rewrite Z.div_opp_l_nz by (lia || exact H); lia.
Qed.

Lemma is_integer_comp (x y : Q) : (x == y)%Q -> is_integer x = is_integer y.
Proof.
  intros E; destruct (is_integer x) eqn:Ex, (is_integer y) eqn:Ey; try reflexivity.
  - apply is_integer_iff in Ex; destruct Ex as [z Hz].
    assert (H : is_integer y = true) by (apply is_integer_iff; exists z; rewrite <- E; exact Hz).
    congruence.
  - apply is_integer_iff in Ey; destruct Ey as [z Hz].
    assert (H : is_integer x = true) by (apply is_integer_iff; exists z; rewrite E; exact Hz).
    congruence.
Qed.

Lemma invalid_spin_noninteger (j : Q) :
  valid_spin j = false -> (- (1 # 2) < j)%Q -> is_integer (2 * j + 1) = false.
Proof.
  unfold valid_spin; intros Hv Hj.
  destruct (is_integer (2 * j + 1)) eqn:E; [|reflexivity].
  apply is_integer_iff in E; destruct E as [z Hz].
  assert (H2 : is_integer (2 * j) = true).
  { apply is_integer_iff; exists (z - 1).
    assert (Hz1 : (inject_Z (z - 1) == inject_Z z - 1)%Q)
      by (unfold Z.sub; rewrite inject_Z_plus; reflexivity).
    rewrite Hz1; lra. }
  rewrite H2, andb_true_r in Hv.
  assert (Hneg : (j < 0)%Q).
  { destruct (Qlt_le_dec j 0) as [H|H]; [exact H|].
    apply Qle_bool_iff in H; congruence. }
  assert (H0 : (inject_Z 0 < inject_Z z)%Q) by (rewrite <- Hz; change (inject_Z 0) with 0%Q; lra).
  assert (H1 : (inject_Z z < inject_Z 1)%Q) by (rewrite <- Hz; change (inject_Z 1) with 1%Q; lra).
  rewrite <- Zlt_Qlt in H0, H1; lia.
Qed.

(** *** The call up to the loop over the generators *)

Lemma sp_symbols_nat (d : nat) :
  sp_symbols (Z.of_nat d ^ 2 * 2) = map Sym (seq 0 (2 * (d * d))).
Proof. unfold sp_symbols; f_equal; f_equal; nia. Qed.

Lemma form_setup (j : Q) (d : nat) :
  int_of_Q (2 * j + 1) = Z.of_nat d ->
  let js := np_arange j (- j - 1) (-1) in
  let syms := map Sym (seq 0 (2 * (d * d))) in
  form_matrix_irrep_so3 j [] =
  bind (foldM (generator_pass j js (Z.of_nat d) (map (unit_vector d) (seq 0 d))
                 (Mat d 1 (repeat kzero d)) 0%nat (Z.of_nat d ^ 2 * 2))
              (enumerate [of_Z 2; kmul (of_Z 2) kI])
              [unknown_matrix d syms; unknown_matrix d (skipn (d * d) syms)])
       (fun generators => ret (generators ++ [mat_map e_const (np_diag js)]))
       [syms; skipn (2 * (d * d)) syms].
Proof.
  intros HD js syms; unfold form_matrix_irrep_so3; rewrite HD; fold js.
  cbv zeta.
  unfold bind at 1; unfold lift at 1; rewrite np_eye_nat.
  unfold bind at 1; unfold list_new at 1; cbn [length app].
  rewrite sp_symbols_nat; fold syms.
  unfold bind at 1; rewrite initialize_generators_run; cbv zeta.
  change (heap_get [syms] 0%nat) with syms.
  rewrite Nat2Z.id.
  replace (2 * (d * d) <=? length syms)%nat with true
    by (symmetry; apply Nat.leb_le; unfold syms; rewrite length_map, length_seq; lia).
  unfold bind at 1; unfold lift at 1; unfold np_zeros.
  replace (Z.of_nat d <? 0) with false by (symmetry; apply Z.ltb_ge; lia).
  rewrite Nat2Z.id.
  erewrite initialize_eigenstates_eye by apply np_eye_nat.
  unfold Matrix_of_array; rewrite repeat_length.
  reflexivity.
Qed.

(** *** Spins that are not half-integers *)

Lemma arange_In (j : Q) (k : Z) (m : Q) :
  In (k, m) (enumerate (np_arange j (- j - 1) (-1))) <->
  0 <= k < Z.max 0 (Qceiling (2 * j + 1)) /\ m = Qred (j + inject_Z k * (-1)).
Proof.
  unfold enumerate; rewrite enumerate_from_In, np_arange_spin, Z.sub_0_r.
  rewrite nth_error_map, nth_error_seq.
  split.
  - intros [Hk Hm].
    destruct (Z.to_nat k <? _)%nat eqn:E; [|discriminate].
    apply Nat.ltb_lt in E; split; [lia|].
    cbn [option_map Nat.add] in Hm; rewrite Z2Nat.id in Hm by lia; congruence.
  - intros [Hk ->]; split; [lia|].
    replace (Z.to_nat k <? _)%nat with true by (symmetry; apply Nat.ltb_lt; lia).
    cbn [option_map Nat.add]; rewrite Z2Nat.id by lia; reflexivity.
Qed.

Lemma chunks_firstn {A} (b : nat) :
  forall a (l : list A), chunks a b (firstn (a * b) l) = chunks a b l.
Proof.
  induction a as [|a IH]; intros l; cbn [chunks]; [reflexivity|].
  rewrite firstn_firstn, skipn_firstn_comm.
  replace (Nat.min b (S a * b)) with b by (simpl; lia).
  replace (S a * b - b)%nat with (a * b)%nat by (simpl; lia).
  rewrite IH; reflexivity.
Qed.

Lemma unknown_matrix_firstn (d : nat) (l : list Symbol) :
  unknown_matrix d (firstn (d * d) l) = unknown_matrix d l.
Proof. unfold unknown_matrix; rewrite chunks_firstn; reflexivity. Qed.

Lemma symbols_NoDup (n : nat) : NoDup (map Sym (seq 0 n)).
Proof.
  apply NoDup_map_NoDup_ForallPairs; [|apply seq_NoDup].
  intros a b _ _ H; inversion H; reflexivity.
Qed.

Lemma NoDup_firstn {A} (n : nat) (l : list A) : NoDup l -> NoDup (firstn n l).
Proof.
  intros H; rewrite <- (firstn_skipn n l) in H; exact (NoDup_app_remove_r _ _ H).
Qed.

Lemma NoDup_skipn {A} (n : nat) (l : list A) : NoDup l -> NoDup (skipn n l).
Proof.
  intros H; rewrite <- (firstn_skipn n l) in H; exact (NoDup_app_remove_l _ _ H).
Qed.

Lemma half_of_num_vars (d : nat) : Z.of_nat d ^ 2 * 2 / 2 = Z.of_nat (d * d).
Proof. rewrite Z.div_mul by lia; nia. Qed.

(** A spin above [-1/2] that is not a half-integer has one magnetic number
    more than basis vectors; the loop over the columns of the first
    generator runs over the end of the basis. *)
Lemma noninteger_spin_run (j : Q) :
  (- (1 # 2) < j)%Q -> is_integer (2 * j + 1) = false ->
  run (form_matrix_irrep_so3 j) = Raise IndexError.
Proof.
  intros Hj Hni.
  pose (d := Z.to_nat (Qfloor (2 * j + 1))).
  assert (Hfl : 0 <= Qfloor (2 * j + 1)).
  { change 0 with (Qfloor 0); apply Qfloor_resp_le; lra. }
  assert (HD : int_of_Q (2 * j + 1) = Z.of_nat d)
    by (rewrite int_of_Q_nonneg by lra; unfold d; lia).
  assert (Hceil : Qceiling (2 * j + 1) = Z.of_nat d + 1)
    by (rewrite Qceiling_noninteger by exact Hni; unfold d; lia).
  assert (Hd_hi : (2 * j + 1 < inject_Z (Z.of_nat d) + 1)%Q).
  { pose proof (Qlt_floor (2 * j + 1)) as H.
    rewrite inject_Z_plus in H; change (inject_Z 1) with 1%Q in H.
    unfold d; rewrite Z2Nat.id by exact Hfl; exact H. }
  unfold run; rewrite (@form_setup j d HD); cbv zeta.
  set (syms := map Sym (seq 0 (2 * (d * d)))).
  set (js := np_arange j (- j - 1) (-1)).
  unfold bind at 1. cbn [enumerate enumerate_from foldM].
  unfold bind at 1. unfold generator_pass at 1. unfold bind at 1.
  unfold column_loop.
  rewrite (@columns_overrun j js d _ 0%nat _ 0 (of_Z 2) _ (firstn (d * d) syms) Hd_hi).
  - reflexivity.
  - rewrite unknown_matrix_firstn; reflexivity.
  - rewrite length_firstn; unfold syms; rewrite length_map, length_seq; lia.
  - apply NoDup_firstn, symbols_NoDup.
  - change (is_two (of_Z 2)) with true; cbv iota.
    change (heap_get [syms; skipn (2 * (d * d)) syms] 0%nat) with syms.
    rewrite half_of_num_vars; unfold py_slice_to.
    replace (Z.of_nat (d * d) <? 0) with false by (symmetry; apply Z.ltb_ge; lia).
    rewrite Nat2Z.id; apply incl_refl.
  - left; reflexivity.
  - intros k m Hin; apply arange_In in Hin; rewrite Hceil in Hin.
    destruct Hin as [Hk ->]; split; [lia|]. rewrite Qred_correct; ring.
  - exists (Qred (j + inject_Z (Z.of_nat d) * (-1))).
    apply arange_In; rewrite Hceil; split; [lia|reflexivity].
Qed.

(** Within the margin, a perturbation of [2j + 1] by at most [2^-21]
    changes neither the dimension [int(2j + 1)] nor the number
    [ceil(2j + 1)] of magnetic numbers: the rounding of the double
    arithmetic, which is far smaller, cannot change the course of the call. *)
Lemma margin_absorbs_rounding (j x : Q) :
  (- (1 # 2) < j)%Q -> rounding_margin j = true ->
  (2 * j + 1 - (1 # 2097152) <= x)%Q -> (x <= 2 * j + 1 + (1 # 2097152))%Q ->
  int_of_Q x = int_of_Q (2 * j + 1) /\ Qceiling x = Qceiling (2 * j + 1).
Proof.
  intros Hj Hm Hx1 Hx2; unfold rounding_margin in Hm; cbv zeta in Hm.
  apply andb_prop in Hm; destruct Hm as [_ Hm].
  apply orb_prop in Hm; destruct Hm as [Hm|Hm];
    [apply Qle_bool_iff in Hm; exfalso; lra|].
  apply andb_prop in Hm; destruct Hm as [H2 H3].
  apply Qle_bool_iff in H2, H3.
  set (y := (2 * j + 1)%Q) in *.
  pose proof (Qfloor_le y) as F1.
  assert (Hf : forall z : Q, (inject_Z (Qfloor y) <= z)%Q ->
                             (z < inject_Z (Qfloor y) + 1)%Q -> Qfloor z = Qfloor y).
  { intros z Z1 Z2.
    pose proof (Qfloor_le z) as A1; pose proof (Qlt_floor z) as A2.
    rewrite inject_Z_plus in A2; change (inject_Z 1) with 1%Q in A2.
    assert (B1 : (inject_Z (Qfloor y) < inject_Z (Qfloor z + 1))%Q)
      by (rewrite inject_Z_plus; change (inject_Z 1) with 1%Q; lra).
    assert (B2 : (inject_Z (Qfloor z) < inject_Z (Qfloor y + 1))%Q)
      by (rewrite inject_Z_plus; change (inject_Z 1) with 1%Q; lra).
    rewrite <- Zlt_Qlt in B1, B2; lia. }
  assert (Hc : forall z : Q, (inject_Z (Qfloor y) < z)%Q ->
                             (z <= inject_Z (Qfloor y) + 1)%Q -> Qceiling z = Qfloor y + 1).
  { intros z Z1 Z2.
    pose proof (Qle_ceiling z) as A1; pose proof (Qceiling_lt z) as A2.
    unfold Z.sub in A2; rewrite inject_Z_plus, inject_Z_opp in A2;
      change (inject_Z 1) with 1%Q in A2.
    assert (B1 : (inject_Z (Qfloor y) < inject_Z (Qceiling z))%Q) by lra.
    assert (B2 : (inject_Z (Qceiling z) < inject_Z (Qfloor y + 2))%Q)
      by (rewrite inject_Z_plus; change (inject_Z 2) with 2%Q; lra).
    rewrite <- Zlt_Qlt in B1, B2; lia. }
  assert (Hy0 : (0 <= y)%Q) by (unfold y; lra).
  assert (Hf0 : (0 <= inject_Z (Qfloor y))%Q).
  { change 0%Q with (inject_Z 0); rewrite <- Zle_Qle, <- (Qfloor_Z 0).
    apply Qfloor_resp_le; exact Hy0. }
  assert (Hx0 : (0 <= x)%Q) by lra.
  rewrite (int_of_Q_nonneg Hx0), (int_of_Q_nonneg Hy0).
  rewrite (Hf x) by lra.
  rewrite (Hc x), (Hc y) by lra.
  split; reflexivity.
Qed.

(** C3, as the code has it: [j] is not validated, and what becomes of an
    invalid [j] is decided by the library calls it reaches.  For the
    invalid [j] on which the rounding of the doubles is harmless
    ([rounding_margin]): for [j <= -1], [np.eye] raises [ValueError] on the
    negative dimension; for [-1 < j <= -1/2] the call returns three 0 x 0
    matrices; for every other one the loop over the columns raises
    [IndexError], and the dimension and the number of magnetic numbers that
    lead there are the same for every value within [2^-21] of [2j + 1], so
    that the rounding of the doubles does not change them.  Outside the
    margin the rounding decides: for [j = 2^-60] the source computes one
    magnetic number for dimension 1 and returns. *)
Theorem invalid_spin_outcomes (j : Q) :
  valid_spin j = false ->
  rounding_margin j = true ->
  run (form_matrix_irrep_so3 j) =
  (if Qle_bool j (-1) then Raise ValueError
   else if Qle_bool j (- (1 # 2)) then Ok (numeric [Mat 0 0 []; Mat 0 0 []; Mat 0 0 []])
   else Raise IndexError) /\
  forall x : Q,
    (- (1 # 2) < j)%Q ->
    (2 * j + 1 - (1 # 2097152) <= x)%Q -> (x <= 2 * j + 1 + (1 # 2097152))%Q ->
    int_of_Q x = int_of_Q (2 * j + 1) /\ Qceiling x = Qceiling (2 * j + 1).
Proof.
  intros Hv Hm; split;
    [|intros x Hj Hx1 Hx2; apply margin_absorbs_rounding; assumption].
  destruct (Qle_bool j (- (1 # 2))) eqn:E.
  - apply Qle_bool_iff in E; rewrite (negative_spin_run E).
    destruct (Qle_bool j (-1)); reflexivity.
  - assert (Hj : (- (1 # 2) < j)%Q).
    { destruct (Qlt_le_dec (- (1 # 2)) j) as [H|H]; [exact H|].
      apply Qle_bool_iff in H; congruence. }
    replace (Qle_bool j (-1)) with false.
    + apply noninteger_spin_run; [exact Hj|apply invalid_spin_noninteger; assumption].
    + symmetry; destruct (Qle_bool j (-1)) eqn:E1; [|reflexivity].
      apply Qle_bool_iff in E1; lra.
Qed.

Lemma invalid_spin_outcomes_witness :
  valid_spin (2 # 3) = false /\
  rounding_margin (2 # 3) = true /\
  run (form_matrix_irrep_so3 (2 # 3)) = Raise IndexError /\
  forall x : Q,
    (- (1 # 2) < 2 # 3)%Q ->
    (2 * (2 # 3) + 1 - (1 # 2097152) <= x)%Q -> (x <= 2 * (2 # 3) + 1 + (1 # 2097152))%Q ->
    int_of_Q x = int_of_Q (2 * (2 # 3) + 1) /\ Qceiling x = Qceiling (2 * (2 # 3) + 1).
Proof.
  split; [reflexivity|]; split; [reflexivity|].
  apply (@invalid_spin_outcomes (2 # 3)); reflexivity.
Defined.

(** C3 as stated fails: [j = -1/2] is not a non-negative (half-)integer,
    yet the call returns. *)
Lemma invalid_spin_not_rejected :
  valid_spin (-1 # 2) = false /\
  run (form_matrix_irrep_so3 (-1 # 2)) =
  Ok (numeric [Mat 0 0 []; Mat 0 0 []; Mat 0 0 []]).
Proof. split; reflexivity. Qed.

(** The two invalid spins named with the property do fail, each in the
    library call it reaches. *)
Example spin_minus_one : run (form_matrix_irrep_so3 (-1)) = Raise ValueError.
Proof. reflexivity. Qed.

Example spin_two_thirds : run (form_matrix_irrep_so3 (2 # 3)) = Raise IndexError.
Proof. reflexivity. Qed.

(** *** Valid spins: the call returns *)

Lemma column_sol_keys (d : nat) (us : list Symbol) (p : K) (k : nat) (rhs : Matrix K) :
  keys (column_sol d us p k rhs) = map (fun r => nth (r * d + k) us (Sym 0)) (seq 0 d).
Proof. unfold column_sol, keys; rewrite map_map; reflexivity. Qed.

(** The solutions of all the columns bind every unknown of the generator
    exactly once. *)
Lemma merged_length (d : nat) (us : list Symbol) (p : K) (cols : list (Z * Q))
  (rhs : Z * Q -> Matrix K) :
  length us = (d * d)%nat -> NoDup us ->
  (forall k m, In (k, m) cols -> 0 <= k < Z.of_nat d) ->
  (forall k, 0 <= k < Z.of_nat d -> exists m, In (k, m) cols) ->
  length (merge_dicts (map (fun km => column_sol d us p (Z.to_nat (fst km)) (rhs km)) cols))
  = (d * d)%nat.
Proof.
  intros Hus Hnd Hrange Hcover.
  set (sols := map _ cols).
  rewrite <- Hus, <- (length_map fst (merge_dicts sols)).
  apply Permutation_length, NoDup_Permutation;
    [apply (@merge_all_NoDup sols []); constructor | exact Hnd |].
  intros s; unfold merge_dicts; rewrite (merge_all_In s sols []); split.
  - intros [[]|(dct & Hd & Hs)].
    unfold sols in Hd; apply in_map_iff in Hd; destruct Hd as ([k m] & <- & Hkm).
    rewrite column_sol_keys in Hs; apply in_map_iff in Hs.
    destruct Hs as (r & <- & Hr); apply in_seq in Hr.
    destruct (Hrange k m Hkm) as [Hk0 Hk1]; cbn [fst].
    apply nth_In; nia.
  - intros Hs; right.
    destruct (In_nth us s (Sym 0) Hs) as (i & Hi & <-).
    assert (Hd0 : d <> O) by (intros ->; simpl in Hus; lia).
    assert (Hk : (i mod d < d)%nat) by (apply Nat.mod_upper_bound; exact Hd0).
    assert (Hr : (i / d < d)%nat) by (apply Nat.Div0.div_lt_upper_bound; lia).
    destruct (Hcover (Z.of_nat (i mod d)) ltac:(lia)) as [m Hm].
    exists (column_sol d us p (Z.to_nat (Z.of_nat (i mod d))) (rhs (Z.of_nat (i mod d), m))).
    split.
    + unfold sols; apply in_map_iff; exists (Z.of_nat (i mod d), m); split; [reflexivity|exact Hm].
    + rewrite column_sol_keys, Nat2Z.id; apply in_map_iff.
      exists (i / d)%nat; split; [|apply in_seq; lia].
      f_equal; rewrite (Nat.div_mod_eq i d) at 3; lia.
Qed.

Section GeneratorPass.

Variables (j : Q) (js : list Q) (d : nat).
Variables (generators : list (Matrix Expr)) (symbols_list : loc) (num_vars i : Z).
Variables (p : K) (h : heap) (us : list Symbol).

Hypothesis Hd_hi : (2 * j + 1 < inject_Z (Z.of_nat d) + 1)%Q.
Hypothesis HG : py_getitem generators i = Ok (unknown_matrix d us).
Hypothesis Hus : length us = (d * d)%nat.
Hypothesis Hnd : NoDup us.
Hypothesis Hincl :
  incl us (if is_two p then py_slice_to (heap_get h symbols_list) (num_vars / 2)
           else py_slice_from (heap_get h symbols_list) (num_vars / 2)).
Hypothesis Hp : is_prefactor p.
Hypothesis Hcols :
  forall k m, In (k, m) (enumerate js) -> 0 <= k < Z.of_nat d /\ (m == j - inject_Z k)%Q.
Hypothesis Hcover : forall k, 0 <= k < Z.of_nat d -> exists m, In (k, m) (enumerate js).

(** One pass solves every column, reassembles a [d] x [d] matrix of
    numbers and stores it in place of the matrix of unknowns. *)
Lemma generator_pass_returns :
  exists J,
    is_square d J /\
    generator_pass j js (Z.of_nat d) (map (unit_vector d) (seq 0 d))
      (Mat d 1 (repeat kzero d)) symbols_list num_vars generators (i, p) h =
    lift (list_setitem generators (Z.to_nat i) (mat_map e_const J)) h.
Proof.
  unfold generator_pass, column_loop.
  unfold bind at 1.
  rewrite (@columns_solved j js d generators symbols_list num_vars i p h us
             Hd_hi HG Hus Hnd Hincl Hp (enumerate js) Hcols []).
  cbn [app]. unfold bind at 1; unfold lift at 1.
  rewrite reassemble_run, merged_length; try assumption;
    [|intros k m Hkm; apply (Hcols k m Hkm)].
  replace (0 <=? Z.of_nat d) with true by (symmetry; apply Z.leb_le; lia).
  replace (Z.of_nat (d * d) =? Z.of_nat d * Z.of_nat d) with true
    by (symmetry; apply Z.eqb_eq; lia).
  cbn [andb]. rewrite Nat2Z.id.
  eexists; split; [|reflexivity].
  unfold is_square; cbn [nrows ncols flat].
  rewrite length_map, sorted_items_length, merged_length; try assumption; auto.
  intros k m Hkm; apply (Hcols k m Hkm).
Qed.

End GeneratorPass.

Lemma is_integer_nonneg (j : Q) :
  valid_spin j = true -> exists n : nat, (2 * j == inject_Z (Z.of_nat n))%Q.
Proof.
  unfold valid_spin; intros H; apply andb_prop in H; destruct H as [H1 H2].
  apply Qle_bool_iff in H1; apply is_integer_iff in H2; destruct H2 as [z Hz].
  exists (Z.to_nat z); rewrite Z2Nat.id; [exact Hz|].
  assert (H : (inject_Z 0 <= inject_Z z)%Q) by (rewrite <- Hz; change (inject_Z 0) with 0%Q; lra).
  rewrite <- Zle_Qle in H; exact H.
Qed.

Lemma flat_map_ext_In {A B} (f g : A -> list B) (l : list A) :
  (forall a, In a l -> f a = g a) -> flat_map f l = flat_map g l.
Proof.
  induction l as [|a l IH]; intros H; cbn [flat_map]; [reflexivity|].
  rewrite (H a (or_introl eq_refl)), IH; [reflexivity|].
  intros b Hb; apply H; right; exact Hb.
Qed.

Lemma np_diag_descending (j : Q) (d : nat) :
  np_diag (map (fun k => Qred (j + inject_Z (Z.of_nat k) * (-1))) (seq 0 d)) =
  diag_descending j d.
Proof.
  unfold np_diag, diag_descending; rewrite length_map, length_seq; f_equal.
  apply flat_map_ext_In; intros r Hr; apply in_seq in Hr.
  apply map_ext; intros c; destruct (r =? c)%nat; [|reflexivity].
  rewrite (nth_indep _ 0%Q (Qred (j + inject_Z (Z.of_nat d) * (-1))))
    by (rewrite length_map, length_seq; lia).
  rewrite (map_nth (fun k => Qred (j + inject_Z (Z.of_nat k) * (-1)))), seq_nth by lia.
  unfold of_Q; f_equal; f_equal; apply Qred_complete; rewrite Qred_correct.
  rewrite Nat.add_0_l; ring.
Qed.

(** X8: for every valid spin the call returns three square matrices of
    numbers of dimension [D = 2j + 1], the third being
    [diag(j, j-1, ..., -j)]: the systems the loop builds are all within
    the solved fragment. *)
Theorem valid_spin_returns (j : Q) :
  valid_spin j = true ->
  exists (D : nat) J1 J2 J3,
    run (form_matrix_irrep_so3 j) = Ok (numeric [J1; J2; J3]) /\
    (inject_Z (Z.of_nat D) == 2 * j + 1)%Q /\
    is_square D J1 /\ is_square D J2 /\ is_square D J3 /\
    J3 = diag_descending j D.
Proof.
  intros Hv; destruct (is_integer_nonneg _ Hv) as [n H2j].
  pose (d := S n).
  assert (HD : int_of_Q (2 * j + 1) = Z.of_nat d) by (apply spin_dimension; exact H2j).
  assert (Hx : (2 * j + 1 == inject_Z (Z.of_nat d))%Q) by (apply spin_plus_one; exact H2j).
  assert (Hd_hi : (2 * j + 1 < inject_Z (Z.of_nat d) + 1)%Q) by (rewrite Hx; lra).
  assert (Hceil : Qceiling (2 * j + 1) = Z.of_nat d)
    by (rewrite (Qceiling_comp _ _ Hx); apply Qceiling_Z).
  assert (Hcols : forall k m, In (k, m) (enumerate (np_arange j (- j - 1) (-1))) ->
                              0 <= k < Z.of_nat d /\ (m == j - inject_Z k)%Q).
  { intros k m Hin; apply arange_In in Hin; rewrite Hceil in Hin.
    destruct Hin as [Hk ->]; split; [lia|]. rewrite Qred_correct; ring. }
  assert (Hcover : forall k, 0 <= k < Z.of_nat d ->
                             exists m, In (k, m) (enumerate (np_arange j (- j - 1) (-1)))).
  { intros k Hk; exists (Qred (j + inject_Z k * (-1))).
    apply arange_In; rewrite Hceil; split; [lia|reflexivity]. }
  unfold run; rewrite (@form_setup j d HD); cbv zeta.
  set (syms := map Sym (seq 0 (2 * (d * d)))).
  set (js := np_arange j (- j - 1) (-1)) in *.
  assert (Hlen : length syms = (2 * (d * d))%nat)
    by (unfold syms; rewrite length_map, length_seq; reflexivity).
  assert (Hnd : NoDup syms) by apply symbols_NoDup.
  set (h := [syms; skipn (2 * (d * d)) syms]).
  assert (Hhalf : Z.of_nat d ^ 2 * 2 / 2 = Z.of_nat (d * d)) by apply half_of_num_vars.
  unfold bind at 1. cbn [enumerate enumerate_from foldM].
  unfold bind at 1.
  destruct (@generator_pass_returns j js d
              [unknown_matrix d syms; unknown_matrix d (skipn (d * d) syms)]
              0%nat (Z.of_nat d ^ 2 * 2) 0 (of_Z 2) h (firstn (d * d) syms))
    as (J1 & HJ1 & Hpass1); try assumption.
  { rewrite unknown_matrix_firstn; reflexivity. }
  { rewrite length_firstn; lia. }
  { apply NoDup_firstn; exact Hnd. }
  { change (is_two (of_Z 2)) with true; cbv iota.
    change (heap_get h 0%nat) with syms.
    rewrite Hhalf; unfold py_slice_to.
    replace (Z.of_nat (d * d) <? 0) with false by (symmetry; apply Z.ltb_ge; lia).
    rewrite Nat2Z.id; apply incl_refl. }
  { left; reflexivity. }
  rewrite Hpass1; cbn [lift list_setitem Z.to_nat rbind].
  unfold bind at 1.
  destruct (@generator_pass_returns j js d
              [mat_map e_const J1; unknown_matrix d (skipn (d * d) syms)]
              0%nat (Z.of_nat d ^ 2 * 2) (0 + 1) (kmul (of_Z 2) kI) h
              (firstn (d * d) (skipn (d * d) syms)))
    as (J2 & HJ2 & Hpass2); try assumption.
  { rewrite unknown_matrix_firstn; reflexivity. }
  { rewrite length_firstn, length_skipn; lia. }
  { apply NoDup_firstn, NoDup_skipn; exact Hnd. }
  { change (is_two (kmul (of_Z 2) kI)) with false; cbv iota.
    change (heap_get h 0%nat) with syms.
    rewrite Hhalf; unfold py_slice_from.
    replace (Z.of_nat (d * d) <? 0) with false by (symmetry; apply Z.ltb_ge; lia).
    rewrite Nat2Z.id; intros s Hs.
    rewrite <- (firstn_skipn (d * d) (skipn (d * d) syms)); apply in_or_app; left; exact Hs. }
  { right; reflexivity. }
  rewrite Hpass2; cbn [lift list_setitem Z.to_nat Z.add Pos.to_nat Pos.iter_op Nat.add rbind ret app].
  exists d, J1, J2, (np_diag js).
  split; [reflexivity|]. split; [rewrite Hx; reflexivity|].
  split; [exact HJ1|]. split; [exact HJ2|].
  assert (HJ3 : np_diag js = diag_descending j d)
    by (unfold js; rewrite (@spin_js j n H2j); apply np_diag_descending).
  split; [|exact HJ3].
  rewrite HJ3; unfold is_square, diag_descending; cbn [nrows ncols flat].
  repeat split.
  rewrite (flat_map_constant_length (c := d)), length_seq; [reflexivity|].
  intros r _; rewrite length_map, length_seq; reflexivity.
Qed.

(** *** The tested spins *)

Lemma commutation_relations_value (J1 J2 J3 : Matrix K) :
  commutation_relations J1 J2 J3 ->
  ccommutation_relations (value_mat J1) (value_mat J2) (value_mat J3).
Proof.
  intros (H1 & H2 & H3); unfold ccommutation_relations, Ci.
  rewrite <- value_kI, <- !value_mat_scale.
  repeat split; apply value_commutator; assumption.
Qed.

Lemma hermitian_value (J : Matrix K) : dagger J = J -> cdagger (value_mat J) = value_mat J.
Proof. intros H; rewrite <- value_dagger, H; reflexivity. Qed.

(** C1: for each tested spin, the returned [J1, J2, J3] satisfy
    [[J1,J2] = i J3], [[J2,J3] = i J1] and [[J3,J1] = i J2], as identities
    between the exact entries and so between the complex matrices they
    stand for. *)
Theorem commutation_relations_tested :
  Forall (fun j => exists J1 J2 J3,
            run (form_matrix_irrep_so3 j) = Ok (numeric [J1; J2; J3]) /\
            commutation_relations J1 J2 J3 /\
            ccommutation_relations (value_mat J1) (value_mat J2) (value_mat J3))
         tested_spins.
Proof.
  repeat constructor;
    (do 3 eexists; split;
     [ apply generators_of_sound; vm_compute; reflexivity
     | match goal with
       | |- ?P /\ _ =>
           assert (H : P) by (repeat split; vm_compute; reflexivity);
           split; [exact H | apply commutation_relations_value; exact H]
       end ]).
Qed.

(** C2: for [j = 1/2] the call returns [J1 = [[0, 1/2], [1/2, 0]]],
    [J2 = [[0, -i/2], [i/2, 0]]] and [J3 = [[1/2, 0], [0, -1/2]]], in this
    order; the entries are the complex numbers [0], [1/2], [-i/2], [i/2]
    and [-1/2]. *)
Theorem irrep_spin_half :
  run (form_matrix_irrep_so3 (1 # 2)) =
  Ok (numeric [ Mat 2 2 [kzero; half; half; kzero]
              ; Mat 2 2 [kzero; kopp (kmul half kI); kmul half kI; kzero]
              ; Mat 2 2 [half; kzero; kzero; kopp half] ]) /\
  map value [kzero; half; kopp (kmul half kI); kmul half kI; kopp half] =
  [(0, 0); (1 / 2, 0); (0, - (1 / 2)); (0, 1 / 2); (- (1 / 2), 0)]%R.
Proof.
  split; [vm_compute; reflexivity|].
  cbn [map]; rewrite !value_kopp, value_kmul; unfold half; rewrite value_of_Q, value_kI.
  assert (Hh : Q2R (1 # 2) = (1 / 2)%R) by (unfold Q2R; simpl; lra).
  rewrite Hh; unfold Cmul, Copp; cbn [fst snd value fold_right kzero].
  unfold Czero.
  repeat match goal with
         | |- _ :: _ = _ :: _ => apply f_equal2; [apply Cx_eq; cbn [fst snd]; lra|]
         end.
  reflexivity.
Qed.

(** C4: for each tested spin the three returned matrices are square of
    dimension [D = 2j + 1], and the third one is [diag(j, j-1, ..., -j)]:
    its last diagonal entry is [-j] and all other entries are zero. *)
Theorem dimension_and_J3_tested :
  Forall (fun j => exists (D : nat) J1 J2 J3,
            run (form_matrix_irrep_so3 j) = Ok (numeric [J1; J2; J3]) /\
            (inject_Z (Z.of_nat D) == 2 * j + 1)%Q /\
            is_square D J1 /\ is_square D J2 /\ is_square D J3 /\
            J3 = diag_descending j D /\
            entry kzero J3 (D - 1) (D - 1) = of_Q (- j))
         tested_spins.
Proof.
  repeat constructor.
  - exists 1%nat; do 3 eexists; split;
      [apply generators_of_sound; vm_compute; reflexivity | repeat split].
  - exists 2%nat; do 3 eexists; split;
      [apply generators_of_sound; vm_compute; reflexivity | repeat split].
  - exists 3%nat; do 3 eexists; split;
      [apply generators_of_sound; vm_compute; reflexivity | repeat split].
  - exists 4%nat; do 3 eexists; split;
      [apply generators_of_sound; vm_compute; reflexivity | repeat split].
  - exists 5%nat; do 3 eexists; split;
      [apply generators_of_sound; vm_compute; reflexivity | repeat split].
Qed.

(** C7: for each tested spin, the returned [J1] and [J2] equal their
    conjugate transposes, entry by entry and as complex matrices. *)
Theorem hermitian_tested :
  Forall (fun j => exists J1 J2 J3,
            run (form_matrix_irrep_so3 j) = Ok (numeric [J1; J2; J3]) /\
            dagger J1 = J1 /\ dagger J2 = J2 /\
            cdagger (value_mat J1) = value_mat J1 /\
            cdagger (value_mat J2) = value_mat J2)
         tested_spins.
Proof.
  repeat constructor;
    (do 3 eexists; split;
     [ apply generators_of_sound; vm_compute; reflexivity
     | match goal with
       | |- ?P1 /\ ?P2 /\ _ =>
           assert (H1 : P1) by (vm_compute; reflexivity);
           assert (H2 : P2) by (vm_compute; reflexivity);
           split; [exact H1|]; split; [exact H2|];
           split; apply hermitian_value; assumption
       end ]).
Qed.

(** C10: for [j = 0] the call returns three 1 x 1 zero matrices.  There is
    one column ([js = [0]]); both ladder terms of its equation are the
    null vector, the solve gives [0] for the only unknown of each
    generator ([x0], then [x1]), and the diagonal entry of [J3] is
    [m_0 = 0]. *)
Theorem irrep_spin_zero :
  let zero1 := Mat 1 1 [kzero] in
  let ses := [Mat 1 1 [of_Z 1]] in
  let G0 := Mat 1 1 [e_sym (Sym 0)] in
  let G1 := Mat 1 1 [e_sym (Sym 1)] in
  let h := [[Sym 0; Sym 1]; []] in
  run (form_matrix_irrep_so3 0) = Ok (numeric [zero1; zero1; zero1]) /\
  np_arange 0 (- 0 - 1) (-1) = [0%Q] /\
  (symbols_list <- list_new (sp_symbols 2) ;; initialize_generators 1 symbols_list) []
    = Ok ([G0; G1], h) /\
  rbind (np_eye 1) (fun eye => Ok (initialize_eigenstates eye)) = Ok ses /\
  m_plus1_state 0 ses zero1 0 0 = Ok zero1 /\
  m_minus1_state 0 [0%Q] ses zero1 0 0 = Ok zero1 /\
  column_solution 0 [0%Q] [G0; G1] ses zero1 0%nat 2 0 (of_Z 2) 0 0 h
    = Ok ([(Sym 0, kzero)], h) /\
  column_solution 0 [0%Q] [mat_map e_const zero1; G1] ses zero1 0%nat 2 1
                  (kmul (of_Z 2) kI) 0 0 h
    = Ok ([(Sym 1, kzero)], h) /\
  np_diag [0%Q] = zero1.
Proof. repeat split. Qed.

(** The matrices the notebook displays for [j = 1] and [j = 3/2]. *)
Example irrep_spin_one :
  exists J2,
    generators_of 1 =
    Some (Mat 3 3 [ kzero; root_over_2 2; kzero
                  ; root_over_2 2; kzero; root_over_2 2
                  ; kzero; root_over_2 2; kzero ],
          J2,
          Mat 3 3 [ of_Z 1; kzero; kzero
                  ; kzero; kzero; kzero
                  ; kzero; kzero; of_Z (-1) ]).
Proof. eexists; vm_compute; reflexivity. Qed.

Example irrep_spin_three_halves :
  exists J2,
    generators_of (3 # 2) =
    Some (Mat 4 4 [ kzero; root_over_2 3; kzero; kzero
                  ; root_over_2 3; kzero; of_Z 1; kzero
                  ; kzero; of_Z 1; kzero; root_over_2 3
                  ; kzero; kzero; root_over_2 3; kzero ],
          J2,
          Mat 4 4 [ of_Q (3 # 2); kzero; kzero; kzero
                  ; kzero; of_Q (1 # 2); kzero; kzero
                  ; kzero; kzero; of_Q (-1 # 2); kzero
                  ; kzero; kzero; kzero; of_Q (-3 # 2) ]).
Proof. eexists; vm_compute; reflexivity. Qed.

(** ** Further properties of the notebook's functions *)

(** *** [initialize_eigenstates] *)

(** X1: for any two-dimensional array, [initialize_eigenstates] returns one
    column vector per column of the array, in order; vector [c] has the
    rows of the array and holds its column [c]. *)
Theorem initialize_eigenstates_columns (a : Matrix K) (c : nat) :
  (c < ncols a)%nat ->
  length (initialize_eigenstates a) = ncols a /\
  exists v,
    nth_error (initialize_eigenstates a) c = Some v /\
    is_column (nrows a) v /\
    forall r, (r < nrows a)%nat -> entry kzero v r 0 = entry kzero a r c.
Proof.
  intros Hc; unfold initialize_eigenstates.
  split; [rewrite length_map, length_seq; reflexivity|].
  exists (Matrix_of_array (column a c)); split; [|split].
  - rewrite nth_error_map, nth_error_seq.
    replace (c <? ncols a)%nat with true by (symmetry; apply Nat.ltb_lt; exact Hc).
    reflexivity.
  - unfold is_column, Matrix_of_array, column; cbn [nrows ncols flat].
    rewrite length_map, length_seq; auto.
  - intros r Hr; unfold Matrix_of_array, column, entry at 1; cbn [ncols flat].
    rewrite Nat.mul_1_r, Nat.add_0_r.
    rewrite (nth_indep _ kzero (entry kzero a (nrows a) c))
      by (rewrite length_map, length_seq; exact Hr).
    rewrite (map_nth (fun r => entry kzero a r c)), seq_nth by exact Hr.
    reflexivity.
Qed.

Lemma initialize_eigenstates_columns_witness :
  let a := Mat 2 3 [of_Z 1; of_Z 2; of_Z 3; of_Z 4; of_Z 5; of_Z 6] in
  length (initialize_eigenstates a) = 3%nat /\
  exists v,
    nth_error (initialize_eigenstates a) 1 = Some v /\
    is_column 2 v /\
    forall r, (r < 2)%nat -> entry kzero v r 0 = entry kzero a r 1.
Proof.
  apply (@initialize_eigenstates_columns
           (Mat 2 3 [of_Z 1; of_Z 2; of_Z 3; of_Z 4; of_Z 5; of_Z 6]) 1).
  simpl; lia.
Defined.

(** *** [initialize_generators] *)

(** X2: the unknowns are laid out row after row, the first generator
    before the second: with [D >= 0] and enough symbols, entry [(r, c)] of
    generator [g] is the symbol at place [g D^2 + r D + c] of the list. *)
Theorem initialize_generators_row_major
  (D : Z) (symbols_list : loc) (h : heap) (g r c : nat) :
  0 <= D ->
  2 * D ^ 2 <= Z.of_nat (length (heap_get h symbols_list)) ->
  (g < 2)%nat -> (r < Z.to_nat D)%nat -> (c < Z.to_nat D)%nat ->
  exists gens h',
    initialize_generators D symbols_list h = Ok (gens, h') /\
    exists G,
      nth_error gens g = Some G /\
      entry (e_const kzero) G r c =
      e_sym (nth (g * (Z.to_nat D * Z.to_nat D) + r * Z.to_nat D + c)
                 (heap_get h symbols_list) (Sym 0)).
Proof.
  intros HD Hl Hg Hr Hc.
  set (n := Z.to_nat D) in *; set (l := heap_get h symbols_list) in *.
  assert (Hn : (2 * (n * n) <= length l)%nat) by (unfold n; nia).
  rewrite initialize_generators_run; cbv zeta; fold n; fold l.
  replace (2 * (n * n) <=? length l)%nat with true by (symmetry; apply Nat.leb_le; exact Hn).
  do 2 eexists; split; [reflexivity|].
  assert (Hentry : forall l', (n * n <= length l')%nat ->
            entry (e_const kzero) (unknown_matrix n l') r c
            = e_sym (nth (r * n + c) l' (Sym 0))).
  { intros l' Hl'; unfold entry.
    destruct (@unknown_matrix_square n l' Hl') as (_ & -> & _).
    rewrite unknown_matrix_flat.
    rewrite (nth_indep _ (e_const kzero) (e_sym (Sym 0)))
      by (rewrite length_map, length_firstn; nia).
    rewrite map_nth, nth_firstn.
    replace (r * n + c <? n * n)%nat with true by (symmetry; apply Nat.ltb_lt; nia).
    reflexivity. }
  destruct g as [|[|g]]; [| |lia].
  - eexists; split; [reflexivity|].
    rewrite Hentry by lia; reflexivity.
  - eexists; split; [reflexivity|].
    rewrite Hentry by (rewrite length_skipn; lia).
    rewrite nth_skipn; f_equal; f_equal; lia.
Qed.

Lemma initialize_generators_row_major_witness :
  exists gens h',
    initialize_generators 2 0%nat [map Sym (seq 0 8)] = Ok (gens, h') /\
    exists G,
      nth_error gens 1 = Some G /\
      entry (e_const kzero) G 1 0 = e_sym (Sym 6).
Proof.
  apply (@initialize_generators_row_major 2 0%nat [map Sym (seq 0 8)] 1 1 0);
    simpl; lia.
Defined.

(** X3: for [D <= 0] both loops are empty: the call pops nothing, never
    raises and returns two 0 x 0 matrices, whatever the list holds. *)
Theorem initialize_generators_no_dimension (D : Z) (symbols_list : loc) (h : heap) :
  D <= 0 ->
  initialize_generators D symbols_list h =
  Ok ([Mat 0 0 []; Mat 0 0 []], h ++ [heap_get h symbols_list]).
Proof.
  intros HD; rewrite initialize_generators_run; cbv zeta.
  replace (Z.to_nat D) with O by lia; reflexivity.
Qed.

Lemma initialize_generators_no_dimension_witness :
  initialize_generators (-3) 0%nat [[Sym 0]] =
  Ok ([Mat 0 0 []; Mat 0 0 []], [[Sym 0]] ++ [[Sym 0]]).
Proof. apply (@initialize_generators_no_dimension (-3) 0%nat [[Sym 0]]); lia. Defined.

(** *** [reassemble_mat_from_sols]: the order of the values *)

Lemma insert_sorted_perm (it : Symbol * K) (l : list (Symbol * K)) :
  Permutation (insert_sorted it l) (it :: l).
Proof.
  induction l as [|it' l IH]; cbn [insert_sorted]; [apply Permutation_refl|].
  destruct (_ <? _)%nat; [apply Permutation_refl|].
  apply perm_trans with (it' :: it :: l); [apply perm_skip; exact IH|apply perm_swap].
Qed.

Lemma sorted_items_perm (d : dict) : Permutation (sorted_items d) d.
Proof.
  unfold sorted_items.
  assert (H : forall acc, Permutation (fold_left (fun acc it => insert_sorted it acc) d acc)
                                      (acc ++ d)).
  { induction d as [|it d IH]; intros acc; cbn [fold_left].
    - rewrite app_nil_r; apply Permutation_refl.
    - apply perm_trans with (insert_sorted it acc ++ d); [apply IH|].
      apply perm_trans with ((it :: acc) ++ d);
        [apply Permutation_app_tail, insert_sorted_perm|].
      cbn [app]; apply Permutation_middle. }
  apply (H []).
Qed.

Lemma insert_sorted_sorted (it : Symbol * K) (l : list (Symbol * K)) :
  StronglySorted item_le l -> StronglySorted item_le (insert_sorted it l).
Proof.
  induction l as [|it' l IH]; intros Hs; cbn [insert_sorted].
  - repeat constructor.
  - inversion Hs as [|? ? Hs' Hall]; subst.
    destruct (_ <? _)%nat eqn:E.
    + apply Nat.ltb_lt in E; constructor; [exact Hs|].
      constructor; [unfold item_le; lia|].
      apply Forall_impl with (P := item_le it'); [|exact Hall].
      unfold item_le; intros x Hx; lia.
    + apply Nat.ltb_ge in E; constructor; [apply IH; exact Hs'|].
      apply (Permutation_Forall (Permutation_sym (insert_sorted_perm it l))).
      constructor; [exact E|exact Hall].
Qed.

Lemma sorted_items_sorted (d : dict) : StronglySorted item_le (sorted_items d).
Proof.
  unfold sorted_items.
  assert (H : forall acc, StronglySorted item_le acc ->
              StronglySorted item_le (fold_left (fun acc it => insert_sorted it acc) d acc)).
  { induction d as [|it d IH]; intros acc Hacc; cbn [fold_left]; [exact Hacc|].
    apply IH, insert_sorted_sorted, Hacc. }
  apply H; constructor.
Qed.

Lemma strictly_sorted (l : list (Symbol * K)) :
  NoDup (keys l) -> StronglySorted item_le l -> StronglySorted item_lt l.
Proof.
  unfold keys; induction l as [|[s v] l IH]; intros Hnd Hs; [constructor|].
  inversion Hs as [|? ? Hs' Hall]; subst.
  cbn [map fst] in Hnd; inversion Hnd as [|? ? Hnotin Hnd']; subst.
  constructor; [apply IH; assumption|].
  rewrite Forall_forall in *; intros [s' v'] Hin.
  specialize (Hall _ Hin); unfold item_le, item_lt in *; cbn [fst] in *.
  destruct (Nat.eq_dec (symbol_index s) (symbol_index s')) as [E|Hne]; [|lia].
  exfalso; apply Hnotin.
  destruct s as [a], s' as [b]; cbn [symbol_index] in E; subst b.
  apply (in_map fst) in Hin; exact Hin.
Qed.

(** A list sorted by strictly increasing index is determined by its
    elements. *)
Lemma strictly_sorted_unique (l l' : list (Symbol * K)) :
  StronglySorted item_lt l -> StronglySorted item_lt l' ->
  (forall x, In x l <-> In x l') -> l = l'.
Proof.
  revert l'; induction l as [|a l IH]; intros [|a' l'] Hs Hs' Hin.
  - reflexivity.
  - destruct (proj2 (Hin a') (or_introl eq_refl)).
  - destruct (proj1 (Hin a) (or_introl eq_refl)).
  - inversion Hs as [|? ? Hsl Hall]; inversion Hs' as [|? ? Hsl' Hall']; subst.
    rewrite Forall_forall in Hall, Hall'.
    assert (Ea : a = a').
    { destruct (proj1 (Hin a) (or_introl eq_refl)) as [E|Ha]; [congruence|].
      destruct (proj2 (Hin a') (or_introl eq_refl)) as [E|Ha']; [congruence|].
      specialize (Hall _ Ha'); specialize (Hall' _ Ha); unfold item_lt in *; lia. }
    subst a'; f_equal; apply IH; [assumption|assumption|].
    intros x; split; intros Hx.
    + destruct (proj1 (Hin x) (or_intror Hx)) as [E|H]; [|exact H].
      subst x; specialize (Hall _ Hx); unfold item_lt in Hall; lia.
    + destruct (proj2 (Hin x) (or_intror Hx)) as [E|H]; [|exact H].
      subst x; specialize (Hall' _ Hx); unfold item_lt in Hall'; lia.
Qed.

Lemma sorted_items_NoDup (d : dict) : NoDup (keys d) -> NoDup (keys (sorted_items d)).
Proof.
  intros H; unfold keys.
  apply (Permutation_NoDup (Permutation_map fst (Permutation_sym (sorted_items_perm d)))).
  exact H.
Qed.

Lemma sorted_items_strict (d : dict) :
  NoDup (keys d) -> StronglySorted item_lt (sorted_items d).
Proof.
  intros H; apply strictly_sorted; [apply sorted_items_NoDup; exact H|].
  apply sorted_items_sorted.
Qed.

Lemma merge_dicts_NoDup (sols : list dict) : NoDup (keys (merge_dicts sols)).
Proof. apply merge_all_NoDup; constructor. Qed.

(** X4: the values of the returned matrix are those of the merged mapping,
    each once, in the order of strictly increasing symbol index. *)
Theorem reassemble_orders_by_index (D : Z) (sols : list dict) (J : Matrix K) :
  reassemble_mat_from_sols D sols = Ok J ->
  exists items,
    flat J = map snd items /\
    Permutation items (merge_dicts sols) /\
    StronglySorted item_lt items.
Proof.
  rewrite reassemble_run.
  destruct (_ && _); [|discriminate].
  intros H; inversion H; subst J; clear H; cbn [flat].
  exists (sorted_items (merge_dicts sols)); split; [reflexivity|]; split.
  - apply sorted_items_perm.
  - apply sorted_items_strict, merge_dicts_NoDup.
Qed.

Lemma reassemble_orders_by_index_witness :
  exists items,
    flat (Mat 2 2 [of_Z 1; of_Z 2; of_Z 3; of_Z 4]) = map snd items /\
    Permutation items
      (merge_dicts [[(Sym 7, of_Z 3); (Sym 2, of_Z 1)]; [(Sym 9, of_Z 4); (Sym 5, of_Z 2)]]) /\
    StronglySorted item_lt items.
Proof.
  apply (@reassemble_orders_by_index 2
           [[(Sym 7, of_Z 3); (Sym 2, of_Z 1)]; [(Sym 9, of_Z 4); (Sym 5, of_Z 2)]]).
  reflexivity.
Defined.

(** *** [reassemble_mat_from_sols]: looking the values up *)

Lemma dict_get_In (d : dict) (s : Symbol) (v : K) :
  NoDup (keys d) -> (In (s, v) d <-> dict_get s d = Some v).
Proof.
  unfold keys; induction d as [|[s' v'] d IH]; cbn [map fst dict_get In]; intros Hnd.
  - split; [intros []|discriminate].
  - inversion Hnd as [|? ? Hnotin Hnd']; subst.
    destruct (Symbol_eq_dec s s') as [E|Hne].
    + subst s'; split.
      * intros [H|H]; [congruence|].
        exfalso; apply Hnotin; apply (in_map fst) in H; exact H.
      * intros H; left; congruence.
    + rewrite <- (IH Hnd'); split; [intros [H|H]; [congruence|exact H]|auto].
Qed.

Lemma keys_In (d : dict) (s : Symbol) : In s (keys d) <-> exists v, In (s, v) d.
Proof.
  unfold keys; rewrite in_map_iff; split.
  - intros ([s' v] & E & H); cbn [fst] in E; subst s'; exists v; exact H.
  - intros [v H]; exists (s, v); split; [reflexivity|exact H].
Qed.

Lemma block_sorted (f : nat -> K) (len : nat) :
  forall off, StronglySorted item_lt (map (fun i => (Sym i, f i)) (seq off len)).
Proof.
  induction len as [|len IH]; intros off; cbn [seq map]; constructor; [apply IH|].
  rewrite Forall_forall; intros x Hx; apply in_map_iff in Hx.
  destruct Hx as (i & <- & Hi); apply in_seq in Hi.
  unfold item_lt; cbn [fst symbol_index]; lia.
Qed.

(** A mapping whose symbols are exactly [x_off .. x_(off+len-1)] is sorted
    into the list of these symbols with their values. *)
Lemma sorted_items_block (d : dict) (off len : nat) :
  NoDup (keys d) ->
  (forall s, In s (keys d) <-> exists i, (off <= i < off + len)%nat /\ s = Sym i) ->
  sorted_items d = map (fun i => (Sym i, dict_value d (Sym i))) (seq off len).
Proof.
  intros Hnd Hkeys; apply strictly_sorted_unique;
    [apply sorted_items_strict; exact Hnd | apply block_sorted |].
  intros [s v]; split.
  - intros H; apply (Permutation_in _ (sorted_items_perm d)) in H.
    assert (Hs : In s (keys d)) by (apply keys_In; exists v; exact H).
    apply Hkeys in Hs; destruct Hs as (i & Hi & ->).
    apply in_map_iff; exists i; split; [|apply in_seq; lia].
    unfold dict_value; apply (@dict_get_In _ _ _ Hnd) in H; rewrite H; reflexivity.
  - intros H; apply in_map_iff in H; destruct H as (i & E & Hi); apply in_seq in Hi.
    inversion E; subst s v; clear E.
    apply (Permutation_in _ (Permutation_sym (sorted_items_perm d))).
    assert (Hs : In (Sym i) (keys d)) by (apply Hkeys; exists i; split; [lia|reflexivity]).
    apply keys_In in Hs; destruct Hs as [v Hv].
    unfold dict_value; rewrite (proj1 (@dict_get_In _ _ _ Hnd) Hv); exact Hv.
Qed.

Lemma block_length (d : dict) (off len : nat) :
  NoDup (keys d) ->
  (forall s, In s (keys d) <-> exists i, (off <= i < off + len)%nat /\ s = Sym i) ->
  length d = len.
Proof.
  intros Hnd Hkeys.
  rewrite <- (sorted_items_length d), (@sorted_items_block _ _ _ Hnd Hkeys).
  rewrite length_map, length_seq; reflexivity.
Qed.

(** X5: when the mappings together bind exactly the [D^2] symbols
    [x_off .. x_(off + D^2 - 1)], the call returns a [D] x [D] matrix whose
    entry [(r, c)] is the value bound to [x_(off + r D + c)]. *)
Theorem reassemble_lookup (D : nat) (off : nat) (sols : list dict) (r c : nat) :
  (forall s, In s (keys (merge_dicts sols)) <->
             exists i, (off <= i < off + D * D)%nat /\ s = Sym i) ->
  (r < D)%nat -> (c < D)%nat ->
  exists J,
    reassemble_mat_from_sols (Z.of_nat D) sols = Ok J /\
    is_square D J /\
    dict_get (Sym (off + r * D + c)) (merge_dicts sols) = Some (entry kzero J r c).
Proof.
  intros Hkeys Hr Hc.
  pose proof (merge_dicts_NoDup sols) as Hnd.
  pose proof (@block_length _ _ _ Hnd Hkeys) as Hlen.
  rewrite reassemble_run, Hlen.
  replace (0 <=? Z.of_nat D) with true by (symmetry; apply Z.leb_le; lia).
  replace (Z.of_nat (D * D) =? Z.of_nat D * Z.of_nat D) with true
    by (symmetry; apply Z.eqb_eq; lia).
  cbn [andb]; rewrite Nat2Z.id.
  eexists; split; [reflexivity|]; split.
  - unfold is_square; cbn [nrows ncols flat].
    rewrite length_map, sorted_items_length, Hlen; auto.
  - unfold entry; cbn [ncols flat].
    rewrite (@sorted_items_block _ _ _ Hnd Hkeys), map_map; cbn [snd].
    rewrite (nth_indep _ kzero (dict_value (merge_dicts sols) (Sym 0)))
      by (rewrite length_map, length_seq; nia).
    rewrite (map_nth (fun i => dict_value (merge_dicts sols) (Sym i))), seq_nth by nia.
    assert (Hs : In (Sym (off + (r * D + c))) (keys (merge_dicts sols)))
      by (apply Hkeys; eexists; split; [|reflexivity]; nia).
    apply keys_In in Hs; destruct Hs as [v Hv].
    apply (@dict_get_In _ _ _ Hnd) in Hv.
    rewrite Nat.add_assoc in Hv; unfold dict_value; rewrite Nat.add_assoc, Hv; reflexivity.
Qed.

Lemma reassemble_lookup_witness :
  exists J,
    reassemble_mat_from_sols (Z.of_nat 2)
      [[(Sym 5, of_Z 1); (Sym 7, of_Z 3)]; [(Sym 6, of_Z 2); (Sym 4, of_Z 0)]] = Ok J /\
    is_square 2 J /\
    dict_get (Sym (4 + 1 * 2 + 1))
      (merge_dicts [[(Sym 5, of_Z 1); (Sym 7, of_Z 3)]; [(Sym 6, of_Z 2); (Sym 4, of_Z 0)]])
    = Some (entry kzero J 1 1).
Proof.
  apply (@reassemble_lookup 2 4
           [[(Sym 5, of_Z 1); (Sym 7, of_Z 3)]; [(Sym 6, of_Z 2); (Sym 4, of_Z 0)]] 1 1);
    [|lia|lia].
  intros s; cbn; split.
  - intros [<-|[<-|[<-|[<-|[]]]]]; eexists; (split; [|reflexivity]); lia.
  - intros (i & Hi & ->).
    assert (i = 4 \/ i = 5 \/ i = 6 \/ i = 7)%nat as [E|[E|[E|E]]] by lia; subst i; auto.
Defined.

(** *** [reassemble_mat_from_sols]: merging *)

Lemma dict_get_set (s k : Symbol) (v : K) (d : dict) :
  dict_get s (dict_set k v d) = if Symbol_eq_dec s k then Some v else dict_get s d.
Proof.
  induction d as [|[k' v'] d IH]; cbn [dict_set dict_get].
  - destruct (Symbol_eq_dec s k); reflexivity.
  - destruct (Symbol_eq_dec k k') as [E|Hne]; cbn [dict_get].
    + subst k'; destruct (Symbol_eq_dec s k); reflexivity.
    + destruct (Symbol_eq_dec s k') as [E|Hne'].
      * destruct (Symbol_eq_dec s k); [congruence|reflexivity].
      * exact IH.
Qed.

Lemma dict_get_update (s : Symbol) (d : dict) :
  NoDup (keys d) ->
  forall acc,
    dict_get s (fold_left (fun acc kv => dict_set (fst kv) (snd kv) acc) d acc) =
    match dict_get s d with Some v => Some v | None => dict_get s acc end.
Proof.
  unfold keys; induction d as [|[k v] d IH]; intros Hnd acc; cbn [fold_left dict_get fst snd].
  - reflexivity.
  - cbn [map fst] in Hnd; inversion Hnd as [|? ? Hnotin Hnd']; subst.
    rewrite (IH Hnd'), dict_get_set.
    destruct (Symbol_eq_dec s k) as [E|Hne]; [|reflexivity].
    subst k; rewrite dict_get_fresh by exact Hnotin; reflexivity.
Qed.

(** X6: a later mapping overrides the earlier ones: after one more mapping
    (with distinct keys, as every Python dict has), a symbol it binds has
    its value, and every other symbol keeps the merged value it had. *)
Theorem merge_later_wins (sols : list dict) (d : dict) (s : Symbol) :
  NoDup (keys d) ->
  dict_get s (merge_dicts (sols ++ [d])) =
  match dict_get s d with
  | Some v => Some v
  | None => dict_get s (merge_dicts sols)
  end.
Proof.
  intros Hnd; unfold merge_dicts; rewrite fold_left_app; cbn [fold_left].
  apply dict_get_update; exact Hnd.
Qed.

Lemma merge_later_wins_witness :
  dict_get (Sym 0) (merge_dicts ([[(Sym 0, of_Z 1); (Sym 1, of_Z 5)]] ++ [[(Sym 0, of_Z 2)]])) =
  match dict_get (Sym 0) [(Sym 0, of_Z 2)] with
  | Some v => Some v
  | None => dict_get (Sym 0) (merge_dicts [[(Sym 0, of_Z 1); (Sym 1, of_Z 5)]])
  end.
Proof.
  apply (@merge_later_wins [[(Sym 0, of_Z 1); (Sym 1, of_Z 5)]] [(Sym 0, of_Z 2)] (Sym 0)).
  repeat constructor; intros [].
Defined.

Lemma merge_one_disjoint (d : dict) :
  forall acc, NoDup (keys acc ++ keys d) ->
    fold_left (fun acc kv => dict_set (fst kv) (snd kv) acc) d acc = acc ++ d.
Proof.
  unfold keys; induction d as [|[k v] d IH]; intros acc Hnd; cbn [fold_left fst snd].
  - rewrite app_nil_r; reflexivity.
  - cbn [map fst] in Hnd.
    assert (Hfresh : ~ In k (keys acc)).
    { apply NoDup_remove_2 in Hnd; intros H; apply Hnd, in_or_app; left; exact H. }
    rewrite (@dict_set_fresh _ _ _ Hfresh), IH.
    + rewrite <- app_assoc; reflexivity.
    + rewrite map_app, <- app_assoc; exact Hnd.
Qed.

Lemma merge_all_disjoint (sols : list dict) :
  forall acc, NoDup (keys acc ++ concat (map keys sols)) ->
    fold_left (fun acc d => fold_left (fun acc kv => dict_set (fst kv) (snd kv) acc) d acc)
              sols acc = acc ++ concat sols.
Proof.
  induction sols as [|d sols IH]; intros acc Hnd; cbn [fold_left concat map].
  - rewrite app_nil_r; reflexivity.
  - cbn [concat map] in Hnd; rewrite app_assoc in Hnd.
    rewrite merge_one_disjoint by (exact (NoDup_app_remove_r _ _ Hnd)).
    rewrite IH; [rewrite <- app_assoc; reflexivity|].
    unfold keys in *; rewrite map_app; exact Hnd.
Qed.

Lemma merge_dicts_disjoint (sols : list dict) :
  NoDup (concat (map keys sols)) -> merge_dicts sols = concat sols.
Proof. intros H; unfold merge_dicts; rewrite merge_all_disjoint; [reflexivity|exact H]. Qed.

Lemma keys_concat (sols : list dict) : keys (concat sols) = concat (map keys sols).
Proof. unfold keys; rewrite concat_map; reflexivity. Qed.

Lemma concat_perm (A : Type) (l l' : list (list A)) :
  Permutation l l' -> Permutation (concat l) (concat l').
Proof.
  induction 1 as [|x l l' _ IH|x y l|l l' l'' _ IH1 _ IH2]; cbn [concat].
  - constructor.
  - apply Permutation_app_head; exact IH.
  - rewrite !app_assoc; apply Permutation_app_tail, Permutation_app_comm.
  - exact (Permutation_trans IH1 IH2).
Qed.

(** X7: when no symbol is bound twice, the order in which the mappings
    are given does not matter. *)
Theorem reassemble_any_order (D : Z) (sols sols' : list dict) :
  NoDup (concat (map keys sols)) ->
  Permutation sols sols' ->
  reassemble_mat_from_sols D sols' = reassemble_mat_from_sols D sols.
Proof.
  intros Hnd Hperm.
  assert (Hnd' : NoDup (concat (map keys sols')))
    by (apply (Permutation_NoDup (concat_perm (Permutation_map keys Hperm))); exact Hnd).
  assert (Hc : Permutation (concat sols) (concat sols')) by (apply concat_perm; exact Hperm).
  unfold reassemble_mat_from_sols.
  rewrite (@merge_dicts_disjoint _ Hnd), (@merge_dicts_disjoint _ Hnd').
  f_equal; f_equal.
  apply strictly_sorted_unique.
  - apply sorted_items_strict; rewrite keys_concat; exact Hnd'.
  - apply sorted_items_strict; rewrite keys_concat; exact Hnd.
  - intros x; split; intros H.
    + apply (Permutation_in _ (sorted_items_perm _)) in H.
      apply (Permutation_in _ (Permutation_sym (sorted_items_perm _))).
      apply (Permutation_in _ (Permutation_sym Hc)); exact H.
    + apply (Permutation_in _ (sorted_items_perm _)) in H.
      apply (Permutation_in _ (Permutation_sym (sorted_items_perm _))).
      apply (Permutation_in _ Hc); exact H.
Qed.

Lemma reassemble_any_order_witness :
  reassemble_mat_from_sols 2 [[(Sym 1, of_Z 5); (Sym 3, of_Z 7)]; [(Sym 0, of_Z 4); (Sym 2, of_Z 6)]] =
  reassemble_mat_from_sols 2 [[(Sym 0, of_Z 4); (Sym 2, of_Z 6)]; [(Sym 1, of_Z 5); (Sym 3, of_Z 7)]].
Proof.
  apply (@reassemble_any_order 2
           [[(Sym 0, of_Z 4); (Sym 2, of_Z 6)]; [(Sym 1, of_Z 5); (Sym 3, of_Z 7)]]
           [[(Sym 1, of_Z 5); (Sym 3, of_Z 7)]; [(Sym 0, of_Z 4); (Sym 2, of_Z 6)]]).
  - cbn; repeat constructor; cbn; intuition discriminate.
  - apply perm_swap.
Defined.

(** *** The store during a call *)

Section GeneratorPassRun.

Variables (j : Q) (js : list Q) (d : nat).
Variables (generators : list (Matrix Expr)) (symbols_list : loc) (num_vars i : Z).
Variables (p : K) (h : heap) (us : list Symbol).

Hypothesis Hd_hi : (2 * j + 1 < inject_Z (Z.of_nat d) + 1)%Q.
Hypothesis HG : py_getitem generators i = Ok (unknown_matrix d us).
Hypothesis Hus : length us = (d * d)%nat.
Hypothesis Hnd : NoDup us.
Hypothesis Hincl :
  incl us (if is_two p then py_slice_to (heap_get h symbols_list) (num_vars / 2)
           else py_slice_from (heap_get h symbols_list) (num_vars / 2)).
Hypothesis Hp : is_prefactor p.
Hypothesis Hcols :
  forall k m, In (k, m) (enumerate js) -> 0 <= k < Z.of_nat d /\ (m == j - inject_Z k)%Q.
Hypothesis Hcover : forall k, 0 <= k < Z.of_nat d -> exists m, In (k, m) (enumerate js).

(** The matrix one pass stores: the values of the merged column solutions
    in the order of the symbols. *)
Lemma generator_pass_run :
  generator_pass j js (Z.of_nat d) (map (unit_vector d) (seq 0 d))
    (Mat d 1 (repeat kzero d)) symbols_list num_vars generators (i, p) h =
  lift (list_setitem generators (Z.to_nat i)
          (mat_map e_const
             (Mat d d
                (map snd
                   (sorted_items
                      (merge_dicts
                         (map (fun km => column_sol d us p (Z.to_nat (fst km))
                                           (rhs_of j js (map (unit_vector d) (seq 0 d))
                                              (Mat d 1 (repeat kzero d)) p km))
                              (enumerate js)))))))) h.
Proof.
  unfold generator_pass, column_loop.
  unfold bind at 1.
  rewrite (@columns_solved j js d generators symbols_list num_vars i p h us
             Hd_hi HG Hus Hnd Hincl Hp (enumerate js) Hcols []).
  cbn [app]. unfold bind at 1; unfold lift at 1.
  rewrite reassemble_run, merged_length; try assumption;
    [|intros k m Hkm; apply (Hcols k m Hkm)].
  replace (0 <=? Z.of_nat d) with true by (symmetry; apply Z.leb_le; lia).
  replace (Z.of_nat (d * d) =? Z.of_nat d * Z.of_nat d) with true
    by (symmetry; apply Z.eqb_eq; lia).
  cbn [andb]. rewrite Nat2Z.id; reflexivity.
Qed.

End GeneratorPassRun.

Lemma symbols_firstn (a b : nat) :
  forall off, firstn a (map Sym (seq off (a + b))) = map Sym (seq off a).
Proof.
  induction a as [|a IH]; intros off; [reflexivity|].
  cbn [Nat.add seq map firstn]; rewrite IH; reflexivity.
Qed.

Lemma symbols_skipn (a b : nat) :
  forall off, skipn a (map Sym (seq off (a + b))) = map Sym (seq (off + a) b).
Proof.
  induction a as [|a IH]; intros off; [rewrite Nat.add_0_r; reflexivity|].
  cbn [Nat.add seq map skipn]; rewrite IH; f_equal; f_equal; lia.
Qed.

(** The set-up of a call in any store: the list of symbols is a new
    object, and [initialize_generators] adds its copy, emptied. *)
Lemma form_setup_at (j : Q) (d : nat) (h : heap) :
  int_of_Q (2 * j + 1) = Z.of_nat d ->
  let js := np_arange j (- j - 1) (-1) in
  let syms := map Sym (seq 0 (2 * (d * d))) in
  form_matrix_irrep_so3 j h =
  bind (foldM (generator_pass j js (Z.of_nat d) (map (unit_vector d) (seq 0 d))
                 (Mat d 1 (repeat kzero d)) (length h) (Z.of_nat d ^ 2 * 2))
              (enumerate [of_Z 2; kmul (of_Z 2) kI])
              [unknown_matrix d syms; unknown_matrix d (skipn (d * d) syms)])
       (fun generators => ret (generators ++ [mat_map e_const (np_diag js)]))
       ((h ++ [syms]) ++ [[]]).
Proof.
  intros HD js syms; unfold form_matrix_irrep_so3; rewrite HD; fold js.
  cbv zeta.
  unfold bind at 1; unfold lift at 1; rewrite np_eye_nat.
  unfold bind at 1; unfold list_new at 1.
  rewrite sp_symbols_nat; fold syms.
  unfold bind at 1; rewrite initialize_generators_run; cbv zeta.
  rewrite heap_get_new, Nat2Z.id.
  assert (Hlen : length syms = (2 * (d * d))%nat)
    by (unfold syms; rewrite length_map, length_seq; reflexivity).
  replace (2 * (d * d) <=? length syms)%nat with true
    by (symmetry; apply Nat.leb_le; lia).
  rewrite (@skipn_all2 _ (2 * (d * d)) syms) by lia.
  unfold bind at 1; unfold lift at 1; unfold np_zeros.
  replace (Z.of_nat d <? 0) with false by (symmetry; apply Z.ltb_ge; lia).
  rewrite Nat2Z.id.
  erewrite initialize_eigenstates_eye by apply np_eye_nat.
  unfold Matrix_of_array; rewrite repeat_length.
  reflexivity.
Qed.

(** The whole call for a valid spin, in any store. *)
Lemma form_at (j : Q) (n : nat) (h : heap) :
  (2 * j == inject_Z (Z.of_nat n))%Q ->
  let d := S n in
  form_matrix_irrep_so3 j h =
  Ok (numeric [solved_generator j d 0 (of_Z 2);
               solved_generator j d (d * d) (kmul (of_Z 2) kI);
               np_diag (np_arange j (- j - 1) (-1))],
      (h ++ [map Sym (seq 0 (2 * (d * d)))]) ++ [[]]).
Proof.
  intros H2j d.
  assert (HD : int_of_Q (2 * j + 1) = Z.of_nat d) by (apply spin_dimension; exact H2j).
  assert (Hx : (2 * j + 1 == inject_Z (Z.of_nat d))%Q) by (apply spin_plus_one; exact H2j).
  assert (Hd_hi : (2 * j + 1 < inject_Z (Z.of_nat d) + 1)%Q) by (rewrite Hx; lra).
  assert (Hceil : Qceiling (2 * j + 1) = Z.of_nat d)
    by (rewrite (Qceiling_comp _ _ Hx); apply Qceiling_Z).
  assert (Hcols : forall k m, In (k, m) (enumerate (np_arange j (- j - 1) (-1))) ->
                              0 <= k < Z.of_nat d /\ (m == j - inject_Z k)%Q).
  { intros k m Hin; apply arange_In in Hin; rewrite Hceil in Hin.
    destruct Hin as [Hk ->]; split; [lia|]. rewrite Qred_correct; ring. }
  assert (Hcover : forall k, 0 <= k < Z.of_nat d ->
                             exists m, In (k, m) (enumerate (np_arange j (- j - 1) (-1)))).
  { intros k Hk; exists (Qred (j + inject_Z k * (-1))).
    apply arange_In; rewrite Hceil; split; [lia|reflexivity]. }
  rewrite (@form_setup_at j d h HD); cbv zeta.
  set (syms := map Sym (seq 0 (2 * (d * d)))).
  set (js := np_arange j (- j - 1) (-1)) in *.
  set (h2 := (h ++ [syms]) ++ [[]]).
  assert (Hget : heap_get h2 (length h) = syms).
  { unfold h2; rewrite heap_get_old by (rewrite length_app; cbn [length]; lia).
    apply heap_get_new. }
  assert (Hhalf : Z.of_nat d ^ 2 * 2 / 2 = Z.of_nat (d * d)) by apply half_of_num_vars.
  assert (Hfirst : firstn (d * d) syms = map Sym (seq 0 (d * d))).
  { unfold syms; replace (2 * (d * d))%nat with (d * d + d * d)%nat by lia.
    apply symbols_firstn. }
  assert (Hskip : skipn (d * d) syms = map Sym (seq (d * d) (d * d))).
  { unfold syms; replace (2 * (d * d))%nat with (d * d + d * d)%nat by lia.
    apply (symbols_skipn (d * d) (d * d) 0). }
  unfold bind at 1. cbn [enumerate enumerate_from foldM].
  unfold bind at 1.
  rewrite (@generator_pass_run j js d
             [unknown_matrix d syms; unknown_matrix d (skipn (d * d) syms)]
             (length h) (Z.of_nat d ^ 2 * 2) 0 (of_Z 2) h2 (map Sym (seq 0 (d * d))));
    try assumption.
  2:{ rewrite <- Hfirst, unknown_matrix_firstn; reflexivity. }
  2:{ rewrite length_map, length_seq; reflexivity. }
  2:{ apply symbols_NoDup. }
  2:{ change (is_two (of_Z 2)) with true; cbv iota.
      rewrite Hget, Hhalf; unfold py_slice_to.
      replace (Z.of_nat (d * d) <? 0) with false by (symmetry; apply Z.ltb_ge; lia).
      rewrite Nat2Z.id, Hfirst; apply incl_refl. }
  2:{ left; reflexivity. }
  cbn [lift list_setitem Z.to_nat rbind].
  unfold bind at 1.
  rewrite (@generator_pass_run j js d
             [mat_map e_const
                (Mat d d (map snd (sorted_items (merge_dicts
                   (map (fun km => column_sol d (map Sym (seq 0 (d * d))) (of_Z 2)
                                     (Z.to_nat (fst km))
                                     (rhs_of j js (map (unit_vector d) (seq 0 d))
                                        (Mat d 1 (repeat kzero d)) (of_Z 2) km))
                        (enumerate js))))));
              unknown_matrix d (skipn (d * d) syms)]
             (length h) (Z.of_nat d ^ 2 * 2) (0 + 1) (kmul (of_Z 2) kI) h2
             (map Sym (seq (d * d) (d * d))));
    try assumption.
  2:{ rewrite Hskip; reflexivity. }
  2:{ rewrite length_map, length_seq; reflexivity. }
  2:{ rewrite <- Hskip; apply NoDup_skipn, symbols_NoDup. }
  2:{ change (is_two (kmul (of_Z 2) kI)) with false; cbv iota.
      rewrite Hget, Hhalf; unfold py_slice_from.
      replace (Z.of_nat (d * d) <? 0) with false by (symmetry; apply Z.ltb_ge; lia).
      rewrite Nat2Z.id, Hskip; apply incl_refl. }
  2:{ right; reflexivity. }
  reflexivity.
Qed.

Lemma run_at {A} (m : M A) (a : A) (h : heap) : m [] = Ok (a, h) -> run m = Ok a.
Proof. unfold run; intros ->; reflexivity. Qed.

(** X12: a call with a valid spin changes no list that existed before;
    the list of the [2 D^2] symbols that it creates (the first list it adds)
    still holds all of them, in order, when the call returns, since
    [initialize_generators] consumed a copy; and the matrices returned do
    not depend on the store.  Nothing is said of how many further lists the
    call makes. *)
Theorem form_matrix_irrep_so3_store (j : Q) (h : heap) :
  valid_spin j = true ->
  exists (D : nat) gens h',
    (inject_Z (Z.of_nat D) == 2 * j + 1)%Q /\
    form_matrix_irrep_so3 j h = Ok (gens, h ++ sp_symbols (2 * Z.of_nat D ^ 2) :: h') /\
    run (form_matrix_irrep_so3 j) = Ok gens.
Proof.
  intros Hv; destruct (is_integer_nonneg _ Hv) as [n H2j].
  exists (S n),
         (numeric [solved_generator j (S n) 0 (of_Z 2);
                   solved_generator j (S n) (S n * S n) (kmul (of_Z 2) kI);
                   np_diag (np_arange j (- j - 1) (-1))]),
         [[]].
  split; [rewrite (@spin_plus_one j n H2j); reflexivity|].
  split; [|exact (run_at _ (@form_at j n [] H2j))].
  rewrite (@form_at j n h H2j), <- app_assoc; cbn [app].
  replace (2 * Z.of_nat (S n) ^ 2) with (Z.of_nat (S n) ^ 2 * 2) by lia.
  rewrite sp_symbols_nat; reflexivity.
Qed.

Lemma form_matrix_irrep_so3_store_witness :
  exists (D : nat) gens h',
    (inject_Z (Z.of_nat D) == 2 * (1 # 2) + 1)%Q /\
    form_matrix_irrep_so3 (1 # 2) [[Sym 7]] =
      Ok (gens, [[Sym 7]] ++ sp_symbols (2 * Z.of_nat D ^ 2) :: h') /\
    run (form_matrix_irrep_so3 (1 # 2)) = Ok gens.
Proof. apply (@form_matrix_irrep_so3_store (1 # 2) [[Sym 7]]); reflexivity. Defined.

(** *** The solution of one column *)



(** *** Every valid spin is accepted *)

Lemma valid_spin_returns_witness :
  exists (D : nat) J1 J2 J3,
    run (form_matrix_irrep_so3 (3 # 2)) = Ok (numeric [J1; J2; J3]) /\
    (inject_Z (Z.of_nat D) == 2 * (3 # 2) + 1)%Q /\
    is_square D J1 /\ is_square D J2 /\ is_square D J3 /\
    J3 = diag_descending (3 # 2) D.
Proof. apply (@valid_spin_returns (3 # 2)); reflexivity. Defined.
